(** * ODE_solver: fixed-step integrators of the teaching notebook

    A shallow embedding of the code cells of [ODE_solver.ipynb]: the class
    [SimplePendulum] with its Euler loop, [integrate_RK2], and the two
    definitions of [integrate_RK4].

    Python numbers are kept behind the interface [Num].  The cells compute
    on [float], the IEEE 754 binary64 numbers Python's [float] is made of:
    what is stated of the trajectories is proved there, from the
    specification of binary64 ([SpecFloat]), or for every instance of [Num].
    The instance [Q], exact rational arithmetic, is the idealisation that
    the words "modulo floating-point rounding" point at; the lemmas on it
    say when a run ends and how many steps it takes there. *)

From Stdlib Require Import String.
From Stdlib Require Import List Bool Arith ZArith QArith Qround Lia.
From Stdlib Require Import Sorted Floats Reals Qreals Psatz.
Import ListNotations.

Set Implicit Arguments.

(** ** Outcomes of running Python code *)

(** The exceptions the modelled cells can raise. *)
Inductive exn : Type :=
| AttributeError
| TypeError
| ZeroDivisionError
| IndexError
| ValueError.

(** A run returns a value, raises, or is cut by the fuel of a [while]. *)
Inductive outcome (A : Type) : Type :=
| Returns (a : A)
| Raises (e : exn)
| NoFuel.

Arguments Returns {A} a.
Arguments Raises {A} e.
Arguments NoFuel {A}.

Definition returned {A} (o : outcome A) : bool :=
  match o with Returns _ => true | _ => false end.

Definition raised {A} (o : outcome A) : bool :=
  match o with Raises _ => true | _ => false end.

(** Code runs against the log of the arguments the right-hand side has been
    evaluated at so far: [L] is the type of one logged argument. *)
Definition M (L A : Type) : Type := list L -> outcome (A * list L).

Definition ret {L A} (a : A) : M L A := fun log => Returns (a, log).

Definition raise {L A} (e : exn) : M L A := fun _ => Raises e.

Definition bind {L A B} (m : M L A) (k : A -> M L B) : M L B :=
  fun log =>
    match m log with
    | Returns (a, log') => k a log'
    | Raises e => Raises e
    | NoFuel => NoFuel
    end.

Declare Scope py_scope.
Delimit Scope py_scope with py.
Notation "x <- m ;; k" := (bind m (fun x => k))
  (at level 61, m at next level, right associativity) : py_scope.
Notation "' p <- m ;; k" := (bind m (fun x => let p := x in k))
  (at level 61, p pattern, m at next level, right associativity) : py_scope.
Open Scope py_scope.

(** A Python callable of one argument: it returns or raises. *)
Definition callable (A : Type) : Type := A -> outcome A.

(** Calling the right-hand side logs the argument it was given. *)
Definition call {A} (f : callable A) (x : A) : M A A :=
  fun log =>
    match f x with
    | Returns d => Returns (d, log ++ [x])
    | Raises e => Raises e
    | NoFuel => NoFuel
    end.

(** [l[-1]]: the last element, [IndexError] on the empty list. *)
Definition py_last {L A} (l : list A) : M L A :=
  match nth_error l (length l - 1) with
  | Some x => ret x
  | None => raise IndexError
  end.

(** [a, b = v]: unpacking a sequence of exactly two elements. *)
Definition unpack2 {L A} (v : list A) : M L (A * A) :=
  match v with
  | [a; b] => ret (a, b)
  | _ => raise ValueError
  end.

(** [while cond: body], cut after [fuel] tests of the condition. *)
Fixpoint while {L St} (fuel : nat) (cond : St -> bool) (body : St -> M L St)
    (st : St) : M L St :=
  match fuel with
  | O => fun _ => NoFuel
  | S fuel' =>
      if cond st then st' <- body st ;; while fuel' cond body st'
      else ret st
  end.

(** ** Numbers *)

(** The arithmetic the cells use, and the literals they write. *)
Class Num (F : Type) : Type := {
  lit_0 : F;        (* 0 and 0.0 *)
  lit_0_5 : F;      (* 0.5 *)
  lit_2 : F;        (* 2 *)
  lit_6 : F;        (* 6.0 *)
  add : F -> F -> F;
  sub : F -> F -> F;
  mul : F -> F -> F;
  div : F -> F -> F;
  opp : F -> F;
  ltb : F -> F -> bool;
  leb : F -> F -> bool;
  eqb : F -> F -> bool
}.

(** [a > b] *)
Definition gtb {F} `{Num F} (a b : F) : bool := ltb b a.

(** [a / b] on Python floats: a zero divisor raises. *)
Definition py_div {F} `{Num F} {L} (a b : F) : M L F :=
  if eqb b lit_0 then raise ZeroDivisionError else ret (div a b).

(** What the integrators need of a state: [+] and the product by a number. *)
Class StateOps (F S : Type) : Type := {
  sadd : S -> S -> S;
  smul : F -> S -> S
}.

(** A state that is one number. *)
#[export] Instance scalar_state {F} `{Num F} : StateOps F F :=
  {| sadd := add; smul := mul |}.

(** binary64, Python's [float]. *)
#[export] Instance Num_float : Num float := {|
  lit_0 := 0%float;
  lit_0_5 := 0.5%float;
  lit_2 := 2%float;
  lit_6 := 6%float;
  add := PrimFloat.add;
  sub := PrimFloat.sub;
  mul := PrimFloat.mul;
  div := PrimFloat.div;
  opp := PrimFloat.opp;
  ltb := PrimFloat.ltb;
  leb := PrimFloat.leb;
  eqb := PrimFloat.eqb
|}.

(** Exact rationals. *)
#[export] Instance Num_Q : Num Q := {|
  lit_0 := 0%Q;
  lit_0_5 := (1 # 2)%Q;
  lit_2 := 2%Q;
  lit_6 := 6%Q;
  add := Qplus;
  sub := Qminus;
  mul := Qmult;
  div := Qdiv;
  opp := Qopp;
  ltb := fun a b => negb (Qle_bool b a);
  leb := Qle_bool;
  eqb := Qeq_bool
|}.

(** ** The cells *)

Section Pendulum.

Context {F : Type} `{Num F}.

(** [np.radians] and [np.sin], numpy's. *)
Variable np_radians : F -> F.
Variable np_sin : F -> F.

(** The attributes [__init__] stores. *)
Record SimplePendulum : Type := {
  theta0 : F;
  g : F;
  L : F
}.

(** [SimplePendulum(theta0, g, L)]; [method] is accepted and dropped. *)
Definition SimplePendulum_init (theta0_deg g L : F) : SimplePendulum :=
  {| theta0 := np_radians theta0_deg; g := g; L := L |}.

(** [self.rhs(theta, omega)] as a callable on the pair of its arguments. *)
Definition rhs (self : SimplePendulum) (theta omega : F) : M (F * F) (list F) :=
  fun log =>
    (q <- py_div (g self) (L self) ;;
     ret [omega; mul (opp q) (np_sin theta)]) (log ++ [(theta, omega)]).

(** The variables of [integrate_euler]'s loop. *)
Record euler_vars : Type := {
  e_t : F;
  t_s : list F;
  theta_s : list F;
  omega_s : list F
}.

Definition euler_body (self : SimplePendulum) (dt : F) (v : euler_vars)
  : M (F * F) euler_vars :=
  theta <- py_last (theta_s v) ;;
  omega <- py_last (omega_s v) ;;
  d <- rhs self theta omega ;;
  '(thetadot, omegadot) <- unpack2 d ;;
  let theta_new := add theta (mul dt thetadot) in
  let omega_new := add omega (mul dt omegadot) in
  let t := add (e_t v) dt in
  ret {| e_t := t;
         t_s := t_s v ++ [t];
         theta_s := theta_s v ++ [theta_new];
         omega_s := omega_s v ++ [omega_new] |}.

Definition integrate_euler (fuel : nat) (self : SimplePendulum) (dt tmax : F)
  : M (F * F) (list F * list F * list F) :=
  let t := lit_0 in
  v <- while fuel (fun v => ltb (e_t v) tmax) (euler_body self dt)
         {| e_t := t; t_s := [t]; theta_s := [theta0 self]; omega_s := [lit_0] |} ;;
  ret (t_s v, theta_s v, omega_s v).

End Pendulum.

Section RungeKutta.

Context {F : Type} `{Num F} {State : Type} `{StateOps F State}.

(** The variables of the Runge-Kutta loops; [tau] is reassigned by the clamp. *)
Record rk_vars : Type := {
  v_t : F;
  v_tau : F;
  times : list F;
  history : list State
}.

(** What stands where the cells write ["insert_here"]: the string itself, or
    an object with a method [rhs]. *)
Inductive receiver : Type :=
| Str (s : string)
| Obj (rhs : callable State).

(** [recv.rhs]: a [str] has no attribute [rhs]. *)
Definition get_rhs (recv : receiver) : M State (callable State) :=
  match recv with
  | Str _ => raise AttributeError
  | Obj f => ret f
  end.

(** [if t + tau > T: tau = T - t] *)
Definition clamp (t tau T : F) : F :=
  if gtb (add t tau) T then sub T t else tau.

Definition RK2_body (recv : receiver) (T : F) (v : rk_vars) : M State rk_vars :=
  state_old <- py_last (history v) ;;
  let tau := clamp (v_t v) (v_tau v) T in
  f <- get_rhs recv ;;
  fdot <- call f state_old ;;
  let state_tmp := sadd state_old (smul (mul lit_0_5 tau) fdot) in
  f <- get_rhs recv ;;
  fdot <- call f state_tmp ;;
  let state_new := sadd state_old (smul tau fdot) in
  let t := add (v_t v) tau in
  ret {| v_t := t; v_tau := tau;
         times := times v ++ [t];
         history := history v ++ [state_new] |}.

Definition integrate_RK2_with (recv : receiver) (fuel : nat) (state0 : State)
    (tau T : F) : M State (list F * list State) :=
  let t := lit_0 in
  v <- while fuel (fun v => ltb (v_t v) T) (RK2_body recv T)
         {| v_t := t; v_tau := tau; times := [] ++ [t]; history := [] ++ [state0] |} ;;
  ret (times v, history v).

(** The cell as it is written. *)
Definition integrate_RK2 : nat -> State -> F -> F -> M State (list F * list State) :=
  integrate_RK2_with (Str "insert_here"%string).

(** The first definition of [integrate_RK4]. *)
Definition RK4_first_body (recv : receiver) (T : F) (v : rk_vars) : M State rk_vars :=
  state_old <- py_last (history v) ;;
  let tau := clamp (v_t v) (v_tau v) T in
  f <- get_rhs recv ;;
  k1 <- call f state_old ;;
  let state_tmp := sadd state_old (smul (mul lit_0_5 tau) k1) in
  f <- get_rhs recv ;;
  k2 <- call f state_tmp ;;
  let state_tmp := sadd state_old (smul (mul lit_0_5 tau) k2) in
  f <- get_rhs recv ;;
  k3 <- call f state_tmp ;;
  let state_tmp := sadd state_old (smul tau k3) in
  f <- get_rhs recv ;;
  k4 <- call f state_tmp ;;
  let state_new :=
    sadd state_old
      (smul (div tau lit_6)
         (sadd (sadd (sadd k1 (smul lit_2 k2)) (smul lit_2 k3)) k4)) in
  let t := add (v_t v) tau in
  ret {| v_t := t; v_tau := tau;
         times := times v ++ [t];
         history := history v ++ [state_new] |}.

Definition integrate_RK4_first_with (recv : receiver) (fuel : nat) (state0 : State)
    (tau T : F) : M State (list F * list State) :=
  let t := lit_0 in
  v <- while fuel (fun v => ltb (v_t v) T) (RK4_first_body recv T)
         {| v_t := t; v_tau := tau; times := [] ++ [t]; history := [] ++ [state0] |} ;;
  ret (times v, history v).

Definition integrate_RK4_first : nat -> State -> F -> F -> M State (list F * list State) :=
  integrate_RK4_first_with (Str "insert_here"%string).

(** The compact definition, the one the name [integrate_RK4] is bound to once
    the notebook has run; [rhs] is the global it calls. *)
Definition RK4_body (rhs : callable State) (T : F) (v : rk_vars) : M State rk_vars :=
  state_old <- py_last (history v) ;;
  let tau := clamp (v_t v) (v_tau v) T in
  k1 <- call rhs state_old ;;
  k2 <- call rhs (sadd state_old (smul (mul lit_0_5 tau) k1)) ;;
  k3 <- call rhs (sadd state_old (smul (mul lit_0_5 tau) k2)) ;;
  k4 <- call rhs (sadd state_old (smul tau k3)) ;;
  let state_new :=
    sadd state_old
      (smul (div tau lit_6)
         (sadd (sadd (sadd k1 (smul lit_2 k2)) (smul lit_2 k3)) k4)) in
  let t := add (v_t v) tau in
  ret {| v_t := t; v_tau := tau;
         times := times v ++ [t];
         history := history v ++ [state_new] |}.

Definition integrate_RK4 (rhs : callable State) (fuel : nat) (state0 : State)
    (tau T : F) : M State (list F * list State) :=
  let t := lit_0 in
  v <- while fuel (fun v => ltb (v_t v) T) (RK4_body rhs T)
         {| v_t := t; v_tau := tau; times := [t]; history := [state0] |} ;;
  ret (times v, history v).

End RungeKutta.

(** The global [rhs] of the notebook: [def rhs()] takes no argument, so the
    call [rhs(state)] raises. *)
Definition notebook_rhs {State} : callable State := fun _ => Raises TypeError.

(** The right-hand side of the decay scenario, [rhs(y) = -y]. *)
Definition decay_rhs {F} `{Num F} : callable F := fun y => Returns (opp y).

(** ** numpy on binary64 *)

(** The double nearest to pi, numpy's [NPY_PI]. *)
Definition pi64 : float := 0x1.921fb54442d18p+1%float.

(** [np.radians] on a double: the product by [pi / 180]. *)
Definition np_radians64 (x : float) : float := (x * (pi64 / 180))%float.

(** The default [g = 9.81] and [L = 9.81] of [__init__], as the double the
    literal denotes. *)
Definition lit_9_81 : float := 0x1.39eb851eb851fp+3%float.

(** The other literals of the scenarios: [0.1], [0.3], [20.0], [10.0]. *)
Definition lit_0_1 : float := 0x1.999999999999ap-4%float.
Definition lit_0_3 : float := 0x1.3333333333333p-2%float.
Definition lit_20 : float := 20%float.
Definition lit_10 : float := 10%float.

(** The rational a finite double stands for. *)
Definition float_value (x : float) : option Q :=
  match Prim2SF x with
  | S754_zero _ => Some 0%Q
  | S754_finite s m e =>
      Some ((if s then -1 else 1) * inject_Z (Zpos m) * 2 ^ e)%Q
  | _ => None
  end.

(** ** The recurrences as the specification words them *)

Section Recurrences.

Context {F : Type} `{Num F} {State : Type} `{StateOps F State}.

(** Euler: [state' = state + tau * rhs(state, t)]. *)
Definition Euler_step_spec (rhs : State -> F -> State) (state : State) (t tau : F)
  : State :=
  sadd state (smul tau (rhs state t)).

(** Midpoint rule: the points [rhs] is evaluated at, and [state']. *)
Definition RK2_step_spec (rhs : State -> F -> State) (state : State) (t tau : F)
  : list State * State :=
  let k1 := rhs state t in
  let mid := sadd state (smul (div tau lit_2) k1) in
  let k2 := rhs mid (add t (div tau lit_2)) in
  ([state; mid], sadd state (smul tau k2)).

(** Classical fourth order rule, weights (1, 2, 2, 1) / 6: the points [rhs]
    is evaluated at, and [state']. *)
Definition RK4_step_spec (rhs : State -> F -> State) (state : State) (t tau : F)
  : list State * State :=
  let k1 := rhs state t in
  let y2 := sadd state (smul (div tau lit_2) k1) in
  let k2 := rhs y2 (add t (div tau lit_2)) in
  let y3 := sadd state (smul (div tau lit_2) k2) in
  let k3 := rhs y3 (add t (div tau lit_2)) in
  let y4 := sadd state (smul tau k3) in
  let k4 := rhs y4 (add t tau) in
  ([state; y2; y3; y4],
   sadd state
     (smul (div tau lit_6)
        (sadd (sadd (sadd k1 (smul lit_2 k2)) (smul lit_2 k3)) k4))).

(** [0.5 * x] is [x / 2]: what lets the code's [0.5 * tau] be read as the
    recurrences' [tau / 2]. *)
Definition half_law : Prop := forall x : F, mul lit_0_5 x = div x lit_2.

(** A right-hand side that takes no time argument, seen as one that does. *)
Definition autonomous (f : State -> State) : State -> F -> State :=
  fun y _ => f y.

(** A total right-hand side as a callable. *)
Definition total (f : State -> State) : callable State :=
  fun y => Returns (f y).

(** The value of a run, its log dropped. *)
Definition value_of {L A} (o : outcome (A * list L)) : outcome A :=
  match o with
  | Returns (a, _) => Returns a
  | Raises e => Raises e
  | NoFuel => NoFuel
  end.

End Recurrences.

(** Vectors as lists: a state of several numbers. *)
#[export] Instance vector_state {F} `{Num F} : StateOps F (list F) :=
  {| sadd := fun u v => map (fun p => add (fst p) (snd p)) (combine u v);
     smul := fun c v => map (mul c) v |}.

(** The pendulum's field on the state [[theta; omega]]:
    [(omega, -(g/L) sin theta)]. *)
Definition pendulum_field {F} `{Num F} (np_sin : F -> F) (g L : F)
    (state : list F) : list F :=
  match state with
  | [theta; omega] => [omega; mul (opp (div g L)) (np_sin theta)]
  | _ => []
  end.

(** ** Trajectories in exact arithmetic *)

(** A list of rationals that increases strictly, from above [lo]. *)
Fixpoint ascending (lo : Q) (l : list Q) : Prop :=
  match l with
  | [] => True
  | x :: l' => lo < x /\ ascending x l'
  end.

(** The natural numbers inside [Q]. *)
Definition qn (k : nat) : Q := inject_Z (Z.of_nat k).

(** The number of steps from 0 to [T]: the ceiling of [T / tau]. *)
Definition steps (tau T : Q) : nat := Z.to_nat (Qceiling (T / tau)).

(** A loop body marches: on variables whose history is not empty it returns,
    having clamped the step, advanced the time by it and appended one entry
    to each list. *)
Definition marches {State} (body : rk_vars (F:=Q) (State:=State) -> M State rk_vars)
    (T : Q) : Prop :=
  forall v log h s, history v = h ++ [s] ->
    exists s' log',
      body v log =
      Returns ({| v_t := v_t v + clamp (v_t v) (v_tau v) T;
                  v_tau := clamp (v_t v) (v_tau v) T;
                  times := times v ++ [v_t v + clamp (v_t v) (v_tau v) T];
                  history := history v ++ [s'] |}, log').

(** What a run from [v] to [v'] adds: [n] entries to the times and to the
    history, the times increasing strictly from the time of [v], none above
    [T], the last one [T]. *)
Definition extends_by {State} (T : Q) (v v' : rk_vars (F:=Q) (State:=State))
    (n : nat) : Prop :=
  exists ext hext,
    times v' = times v ++ ext /\ history v' = history v ++ hext
    /\ length ext = n /\ length hext = n
    /\ ascending (v_t v) ext
    /\ Forall (fun x => (x <= T)%Q) ext
    /\ (last ext 0 == T)%Q.

(** A callable that returns on every argument. *)
Definition always_returns {A} (f : callable A) : Prop :=
  forall y, exists d, f y = Returns d.

(** A run that returned a trajectory whose last time is [T], none above. *)
Definition ends_on {State} (T : Q)
    (r : outcome ((list Q * list State) * list State)) : Prop :=
  exists ts hs log',
    r = Returns ((ts, hs), log')
    /\ (last ts 0 == T)%Q
    /\ Forall (fun t => (t <= T)%Q) ts.

(** A run that returned a trajectory of [n + 1] entries, the first one
    [(0, state0)], the times increasing strictly and none above [T]. *)
Definition trajectory_of {State} (n : nat) (T : Q) (state0 : State)
    (r : outcome ((list Q * list State) * list State)) : Prop :=
  exists ts hs log',
    r = Returns ((ts, hs), log')
    /\ length ts = S n /\ length hs = S n
    /\ hd_error ts = Some 0%Q /\ hd_error hs = Some state0
    /\ StronglySorted Qlt ts
    /\ Forall (fun t => (t <= T)%Q) ts.

(** ** Reading the result of the Euler driver *)

(** The times of a run of [integrate_euler] that returned. *)
Definition euler_times {F}
    (r : outcome ((list F * list F * list F) * list (F * F))) : option (list F) :=
  match r with
  | Returns ((ts, _, _), _) => Some ts
  | _ => None
  end.

(** The Euler loop returned with [n] times recorded. *)
Definition returned_with_times {F} (n : nat)
    (r : outcome (euler_vars (F:=F) * list (F * F))) : bool :=
  match r with
  | Returns (v, _) => Nat.eqb (length (t_s v)) n
  | _ => false
  end.

(** ** What a pass and a run leave behind *)

(** A loop body steps, evaluating [rhs] [c] times: whenever it returns, on
    variables whose history is not empty, it has advanced the time by the
    step it left in [tau], appended one entry to each list and [c] entries
    to the log. *)
Definition steps_with {F State} `{Num F} (c : nat)
    (body : rk_vars (F:=F) (State:=State) -> M State rk_vars) : Prop :=
  forall v log v1 log1 h s,
    history v = h ++ [s] ->
    body v log = Returns (v1, log1) ->
    exists tau' s' calls,
      v1 = {| v_t := add (v_t v) tau'; v_tau := tau';
              times := times v ++ [add (v_t v) tau'];
              history := history v ++ [s'] |}
      /\ log1 = log ++ calls /\ length calls = c.

(** A list each entry of which is the one before plus [dt], from [t] on. *)
Fixpoint advances {F} `{Num F} (t dt : F) (l : list F) : Prop :=
  match l with
  | [] => True
  | x :: l' => x = add t dt /\ advances x dt l'
  end.

(** The samples [(theta, omega)] that follow a given one in an Euler run:
    each pair is the one before advanced by [dt] along the pendulum's field
    evaluated there. *)
Fixpoint euler_iterates {F} `{Num F} (np_sin : F -> F) (g L dt : F)
    (theta omega : F) (ths oms : list F) : Prop :=
  match ths, oms with
  | [], [] => True
  | theta' :: ths', omega' :: oms' =>
      theta' = add theta (mul dt omega)
      /\ omega' = add omega (mul dt (mul (opp (div g L)) (np_sin theta)))
      /\ euler_iterates np_sin g L dt theta' omega' ths' oms'
  | _, _ => False
  end.

(** The small-angle reading of the sine, [sin theta ~ theta]: a concrete
    function to run the pendulum with. *)
Definition small_angle {F} (theta : F) : F := theta.

(** ** binary64: one half and two *)

(** The doubles [0.5] and [2] as sign, mantissa and exponent. *)
Definition SFhalf : spec_float := S754_finite false 4503599627370496 (-53).
Definition SFtwo : spec_float := S754_finite false 4503599627370496 (-51).

(** ** The trajectory as an iteration *)

(** The entries that follow the time [t] and state [y] when the step in
    force is [c]: the step is clamped, and the clamped step stays in force;
    the time advances by it and the state by [step]. *)
Fixpoint rk_iterates {F State} `{Num F} (step : State -> F -> F -> State)
    (T t c : F) (y : State) (ts : list F) (hs : list State) : Prop :=
  match ts, hs with
  | [], [] => True
  | t' :: ts', y' :: hs' =>
      let c' := clamp t c T in
      t' = add t c' /\ y' = step y t c'
      /\ rk_iterates step T t' c' y' ts' hs'
  | _, _ => False
  end.

(** A loop body follows [step]: on variables whose history is not empty it
    returns, having clamped the step, advanced the time by it and appended
    the last state advanced by [step]. *)
Definition follows_step {F State} `{Num F} (step : State -> F -> F -> State)
    (body : rk_vars (F:=F) (State:=State) -> M State rk_vars) (T : F) : Prop :=
  forall v log h s, history v = h ++ [s] ->
    exists log',
      body v log =
      Returns ({| v_t := add (v_t v) (clamp (v_t v) (v_tau v) T);
                  v_tau := clamp (v_t v) (v_tau v) T;
                  times := times v ++ [add (v_t v) (clamp (v_t v) (v_tau v) T)];
                  history := history v ++
                    [step s (v_t v) (clamp (v_t v) (v_tau v) T)] |}, log').

(** ** binary64: positive numbers as integers *)

(** The value of a positive binary64 number in units of [2^-1074], the
    weight of the last bit of the smallest numbers: every finite number is a
    whole multiple of it.  The infinity stands at [2^1024], that is at
    [2^2098] units, above every finite number. *)
Definition SFvalue (x : spec_float) : Z :=
  match x with
  | S754_finite _ m e => (Zpos m * 2 ^ (e + 1074))%Z
  | S754_infinity _ => (2 ^ 2098)%Z
  | _ => 0%Z
  end.

(** The positive numbers, the infinity included: what [0 < x] says of [x]. *)
Definition SFpositive (x : spec_float) : Prop :=
  match x with
  | S754_finite false m e => SpecFloat.bounded prec emax m e = true
  | S754_infinity false => True
  | _ => False
  end.

(** The zeros, the negative numbers and the negative infinity: what
    [x <= 0] says of [x]. *)
Definition SFnonpositive (x : spec_float) : Prop :=
  match x with
  | S754_zero _ => True
  | S754_infinity true => True
  | S754_finite true m e => SpecFloat.bounded prec emax m e = true
  | _ => False
  end.

(** The value of a positive Python float, in the same units. *)
Definition float_Z (x : float) : Z := SFvalue (Prim2SF x).

(** ** What a clamped loop records *)

(** A loop body clamps: whenever it returns, on variables whose history is
    not empty, it has clamped the step against [T], left the clamped step in
    [tau], advanced the time by it and appended one entry to each list. *)
Definition clamps {F State} `{Num F}
    (body : rk_vars (F:=F) (State:=State)
            -> M State (rk_vars (F:=F) (State:=State))) (T : F) : Prop :=
  forall v log v1 log1 h s,
    history v = h ++ [s] ->
    body v log = Returns (v1, log1) ->
    exists s',
      v1 = {| v_t := add (v_t v) (clamp (v_t v) (v_tau v) T);
              v_tau := clamp (v_t v) (v_tau v) T;
              times := times v ++ [add (v_t v) (clamp (v_t v) (v_tau v) T)];
              history := history v ++ [s'] |}.

(** A loop body proceeds: on variables whose history is not empty it
    returns. *)
Definition proceeds {F State}
    (body : rk_vars (F:=F) (State:=State)
            -> M State (rk_vars (F:=F) (State:=State))) : Prop :=
  forall v log h s, history v = h ++ [s] ->
    exists v1 log1, body v log = Returns (v1, log1).

(** The times that follow [t] when the step in force is [c]: each is the
    one before plus the step clamped against [T], [T - t] whenever
    [t + c > T], and the clamped step stays in force. *)
Fixpoint clamped_times {F} `{Num F} (T t c : F) (ts : list F) : Prop :=
  match ts with
  | [] => True
  | t' :: ts' =>
      t' = add t (clamp t c T) /\ clamped_times T t' (clamp t c T) ts'
  end.

(** A list whose entries increase strictly, from above [lo], in the order
    of the code's own test [<]. *)
Fixpoint increases {F} `{Num F} (lo : F) (l : list F) : Prop :=
  match l with
  | [] => True
  | x :: l' => ltb lo x = true /\ increases x l'
  end.


(** The history one pass leaves, its other variables and the log dropped. *)
Definition appended {F State}
    (o : outcome (rk_vars (F:=F) (State:=State) * list State))
  : outcome (list State) :=
  match o with
  | Returns (v, _) => Returns (history v)
  | Raises e => Raises e
  | NoFuel => NoFuel
  end.

(** ** Running the monad *)

Lemma bind_returns {L A B} (m : M L A) (k : A -> M L B) log a log' :
  m log = Returns (a, log') -> bind m k log = k a log'.
Proof. unfold bind; intros ->; reflexivity. Qed.

Lemma bind_raises {L A B} (m : M L A) (k : A -> M L B) log e :
  m log = Raises e -> bind m k log = Raises e.
Proof. unfold bind; intros ->; reflexivity. Qed.

Lemma bind_nofuel {L A B} (m : M L A) (k : A -> M L B) log :
  m log = NoFuel -> bind m k log = NoFuel.
Proof. unfold bind; intros ->; reflexivity. Qed.

Lemma py_last_snoc {L A} (l : list A) (x : A) (log : list L) :
  py_last (l ++ [x]) log = Returns (x, log).
Proof.
  unfold py_last.
  rewrite length_app; simpl.
  replace (length l + 1 - 1)%nat with (length l) by lia.
  rewrite nth_error_app2 by lia.
  rewrite Nat.sub_diag; reflexivity.
Qed.

Lemma py_last_nil {L A} (log : list L) :
  @py_last L A [] log = Raises IndexError.
Proof. reflexivity. Qed.

Lemma call_returns {A} (f : callable A) x d log :
  f x = Returns d -> call f x log = Returns (d, log ++ [x]).
Proof. unfold call; intros ->; reflexivity. Qed.

Lemma while_done {L St} fuel (cond : St -> bool) (body : St -> M L St) st log :
  cond st = false -> while (S fuel) cond body st log = Returns (st, log).
Proof. simpl; intros ->; reflexivity. Qed.

Lemma while_step {L St} fuel (cond : St -> bool) (body : St -> M L St) st log :
  cond st = true ->
  while (S fuel) cond body st log = bind (body st) (while fuel cond body) log.
Proof. simpl; intros ->; reflexivity. Qed.

(** More fuel does not change a run that ended. *)
Lemma while_fuel_mono {L St} (cond : St -> bool) (body : St -> M L St) :
  forall fuel st log r,
    while fuel cond body st log = r -> r <> NoFuel ->
    forall k, while (fuel + k) cond body st log = r.
Proof.
  induction fuel as [|fuel IH]; intros st log r Hr Hne k.
  - simpl in Hr; congruence.
  - simpl in *. destruct (cond st); [|exact Hr].
    unfold bind in *.
    destruct (body st log) as [[st' log']| |]; try exact Hr.
    apply IH; assumption.
Qed.

(** Unfolds one pass through a loop body whose lists end in known elements. *)
Ltac run_body :=
  unfold bind, ret, raise, call, total, get_rhs, unpack2, py_div;
  repeat (rewrite py_last_snoc; cbn beta iota);
  cbn beta iota.

(** ** The right-hand side of the pendulum *)

Section PendulumFacts.

Context {F : Type} `{Num F}.
Variable np_sin : F -> F.

Lemma rhs_eq (self : SimplePendulum) (theta omega : F) log :
  rhs np_sin self theta omega log =
  if eqb (L self) lit_0 then Raises ZeroDivisionError
  else Returns ([omega; mul (opp (div (g self) (L self))) (np_sin theta)],
                log ++ [(theta, omega)]).
Proof.
  unfold rhs, py_div, bind, ret, raise.
  destruct (eqb (L self) lit_0); reflexivity.
Qed.

(** C8: [rhs(theta, omega)] is [(omega, -(g/L) sin theta)] with the [g] and
    [L] stored at construction (Python's float division raising when [L] is
    zero); the vector has dimension 2, and the value does not depend on what
    was evaluated before nor on the stored initial angle: two calls with the
    same arguments return the same vector. *)
Theorem rhs_pendulum (np_radians : F -> F) (theta0_deg g0 L0 theta omega : F)
    (log : list (F * F)) :
  let self := SimplePendulum_init np_radians theta0_deg g0 L0 in
  rhs np_sin self theta omega log =
    (if eqb L0 lit_0 then Raises ZeroDivisionError
     else Returns ([omega; mul (opp (div g0 L0)) (np_sin theta)],
                   log ++ [(theta, omega)]))
  /\ (forall d log', rhs np_sin self theta omega log = Returns (d, log') ->
        length d = 2%nat
        /\ d = pendulum_field np_sin g0 L0 [theta; omega])
  /\ (forall theta0_deg' log',
        value_of (rhs np_sin (SimplePendulum_init np_radians theta0_deg' g0 L0)
                    theta omega log')
        = value_of (rhs np_sin self theta omega log)).
Proof.
  intros self. split; [|split].
  - apply rhs_eq.
  - intros d log'. rewrite rhs_eq. simpl.
    destruct (eqb L0 lit_0); [discriminate|].
    intros Hd. injection Hd as <- _. split; reflexivity.
  - intros theta0_deg' log'. rewrite !rhs_eq. simpl.
    destruct (eqb L0 lit_0); reflexivity.
Qed.

(** C5: one pass through the loop body of [integrate_euler] is the Euler
    recurrence [state' = state + dt * rhs(state, t)] on the state
    [[theta; omega]], component by component, the time advancing by [dt]. *)
Theorem euler_body_recurrence (self : SimplePendulum) (dt t : F)
    (ts ths oms : list F) (theta omega : F) (log : list (F * F)) :
  let theta' := add theta (mul dt omega) in
  let omega' :=
    add omega (mul dt (mul (opp (div (g self) (L self))) (np_sin theta))) in
  Euler_step_spec (autonomous (pendulum_field np_sin (g self) (L self)))
    [theta; omega] t dt = [theta'; omega']
  /\ euler_body np_sin self dt
       {| e_t := t; t_s := ts; theta_s := ths ++ [theta];
          omega_s := oms ++ [omega] |} log
     = if eqb (L self) lit_0 then Raises ZeroDivisionError
       else Returns ({| e_t := add t dt;
                        t_s := ts ++ [add t dt];
                        theta_s := (ths ++ [theta]) ++ [theta'];
                        omega_s := (oms ++ [omega]) ++ [omega'] |},
                     log ++ [(theta, omega)]).
Proof.
  intros theta' omega'. split; [reflexivity|].
  unfold euler_body.
  rewrite (bind_returns _ _ _ (py_last_snoc ths theta log)).
  rewrite (bind_returns _ _ _ (py_last_snoc oms omega log)).
  unfold bind at 1. rewrite rhs_eq.
  destruct (eqb (L self) lit_0); reflexivity.
Qed.

End PendulumFacts.

(** ** One pass through the Runge-Kutta loop bodies *)

Section BodyFacts.

Context {F : Type} `{Num F} {State : Type} `{StateOps F State}.

Lemma RK4_body_total (f : State -> State) (T : F) (v : rk_vars) h s log :
  history v = h ++ [s] ->
  let tau := clamp (v_t v) (v_tau v) T in
  let k1 := f s in
  let y2 := sadd s (smul (mul lit_0_5 tau) k1) in
  let k2 := f y2 in
  let y3 := sadd s (smul (mul lit_0_5 tau) k2) in
  let k3 := f y3 in
  let y4 := sadd s (smul tau k3) in
  let k4 := f y4 in
  RK4_body (total f) T v log =
  Returns ({| v_t := add (v_t v) tau; v_tau := tau;
              times := times v ++ [add (v_t v) tau];
              history := history v ++
                [sadd s (smul (div tau lit_6)
                   (sadd (sadd (sadd k1 (smul lit_2 k2)) (smul lit_2 k3)) k4))] |},
           (((log ++ [s]) ++ [y2]) ++ [y3]) ++ [y4]).
Proof.
  intros Hh. unfold RK4_body. rewrite Hh. run_body. reflexivity.
Qed.

Lemma RK4_first_body_total (f : State -> State) (T : F) (v : rk_vars) h s log :
  history v = h ++ [s] ->
  RK4_first_body (Obj (total f)) T v log = RK4_body (total f) T v log.
Proof.
  intros Hh. unfold RK4_first_body, RK4_body. rewrite Hh. run_body. reflexivity.
Qed.

Lemma RK2_body_total (f : State -> State) (T : F) (v : rk_vars) h s log :
  history v = h ++ [s] ->
  let tau := clamp (v_t v) (v_tau v) T in
  let mid := sadd s (smul (mul lit_0_5 tau) (f s)) in
  RK2_body (Obj (total f)) T v log =
  Returns ({| v_t := add (v_t v) tau; v_tau := tau;
              times := times v ++ [add (v_t v) tau];
              history := history v ++ [sadd s (smul tau (f mid))] |},
           (log ++ [s]) ++ [mid]).
Proof.
  intros Hh. unfold RK2_body. rewrite Hh. run_body. reflexivity.
Qed.

(** With the string where the cell has it, a pass raises at the first
    [.rhs]. *)
Lemma RK2_body_placeholder (str : string) (T : F) (v : rk_vars) h s log :
  history v = h ++ [s] ->
  RK2_body (Str str) T v log = Raises AttributeError.
Proof.
  intros Hh. unfold RK2_body. rewrite Hh. run_body. reflexivity.
Qed.

Lemma RK4_first_body_placeholder (str : string) (T : F) (v : rk_vars) h s log :
  history v = h ++ [s] ->
  RK4_first_body (Str str) T v log = Raises AttributeError.
Proof.
  intros Hh. unfold RK4_first_body. rewrite Hh. run_body. reflexivity.
Qed.

(** C3, as the code has it: the cells call [rhs(state)], so the right-hand
    side is a function [f] of the state alone and no time reaches it.  In an
    arithmetic where [0.5 * x] is [x / 2], as on binary64, one pass through
    the loop body of [integrate_RK4] evaluates [rhs] four times, at [state],
    [state + (tau/2) k1], [state + (tau/2) k2] and [state + tau k3] in this
    order, and appends [state + (tau/6) (k1 + 2 k2 + 2 k3 + k4)], where
    [tau] is the step left by the clamp; the first definition, once an
    object with [rhs] stands for the placeholder, does the same. *)
Theorem RK4_body_recurrence (Hhalf : half_law) (f : State -> State)
    (T t tau : F) (ts : list F) (h : list State) (state : State)
    (log : list State) :
  let v := {| v_t := t; v_tau := tau; times := ts; history := h ++ [state] |} in
  let tau' := clamp t tau T in
  let spec := RK4_step_spec (autonomous f) state t tau' in
  RK4_body (total f) T v log =
    Returns ({| v_t := add t tau'; v_tau := tau';
                times := ts ++ [add t tau'];
                history := (h ++ [state]) ++ [snd spec] |},
             log ++ fst spec)
  /\ RK4_first_body (Obj (total f)) T v log = RK4_body (total f) T v log
  /\ length (fst spec) = 4%nat.
Proof.
  intros v tau' spec. split; [|split].
  - rewrite (RK4_body_total f T v h state log eq_refl).
    unfold spec, RK4_step_spec, autonomous; simpl.
    rewrite <- !Hhalf. rewrite <- !app_assoc. reflexivity.
  - apply (RK4_first_body_total f T v h state log eq_refl).
  - reflexivity.
Qed.

(** C4, as the code has it: as the cell is written, one pass through the
    loop body of [integrate_RK2] raises [AttributeError] at
    ["insert_here".rhs], before [rhs] is evaluated.  With an object with
    [rhs] standing for the placeholder, [rhs] being a function [f] of the
    state alone, and in an arithmetic where [0.5 * x] is [x / 2], as on
    binary64, the pass evaluates [rhs] exactly twice, at [state] and at
    [mid = state + (tau/2) k1], and appends [state + tau k2], where [tau]
    is the step left by the clamp. *)
Theorem RK2_body_recurrence (Hhalf : half_law) (f : State -> State)
    (T t tau : F) (ts : list F) (h : list State) (state : State)
    (log : list State) :
  let v := {| v_t := t; v_tau := tau; times := ts; history := h ++ [state] |} in
  let tau' := clamp t tau T in
  let spec := RK2_step_spec (autonomous f) state t tau' in
  RK2_body (Str "insert_here") T v log = Raises AttributeError
  /\ RK2_body (Obj (total f)) T v log =
       Returns ({| v_t := add t tau'; v_tau := tau';
                   times := ts ++ [add t tau'];
                   history := (h ++ [state]) ++ [snd spec] |},
                log ++ fst spec)
  /\ length (fst spec) = 2%nat.
Proof.
  intros v tau' spec. split; [|split].
  - apply (RK2_body_placeholder "insert_here" T v h state log eq_refl).
  - rewrite (RK2_body_total f T v h state log eq_refl).
    unfold spec, RK2_step_spec, autonomous; simpl.
    rewrite <- !Hhalf. rewrite <- !app_assoc. reflexivity.
  - reflexivity.
Qed.

End BodyFacts.

(** ** The drivers at their entry *)

Section DriverEntry.

Context {F : Type} `{Num F} {State : Type} `{StateOps F State}.

(** C10: [integrate_RK2] and the first [integrate_RK4], as the cells are
    written, raise [AttributeError] in their first pass whenever the loop is
    entered, that is whenever [0 < T], for every [tau] and initial state:
    nothing is appended to the trajectory.  They return normally exactly
    when the loop test [0 < T] fails (for numbers: [T <= 0]), and then with
    the initial entry only. *)
Theorem placeholder_drivers (fuel : nat) (state0 : State) (tau T : F)
    (log : list State) :
  integrate_RK2 (S fuel) state0 tau T log =
    (if ltb lit_0 T then Raises AttributeError
     else Returns (([lit_0], [state0]), log))
  /\ integrate_RK4_first (S fuel) state0 tau T log =
    (if ltb lit_0 T then Raises AttributeError
     else Returns (([lit_0], [state0]), log)).
Proof.
  unfold integrate_RK2, integrate_RK2_with,
    integrate_RK4_first, integrate_RK4_first_with.
  split.
  - unfold bind at 1. simpl while.
    destruct (ltb lit_0 T); [|reflexivity].
    unfold bind at 1.
    erewrite RK2_body_placeholder with (h := []) (s := state0) by reflexivity.
    reflexivity.
  - unfold bind at 1. simpl while.
    destruct (ltb lit_0 T); [|reflexivity].
    unfold bind at 1.
    erewrite RK4_first_body_placeholder with (h := []) (s := state0)
      by reflexivity.
    reflexivity.
Qed.

(** C2, as the code has it: no driver looks at [tau] or [T] before its loop.
    When the loop test [0 < T] fails (for numbers: [T <= 0]) every driver
    returns normally, for every [tau], the trajectory that holds the initial
    entry only, and [rhs] is not evaluated. *)
Theorem drivers_accept_nonpositive_T (np_sin : F -> F) (self : SimplePendulum)
    (rhs : callable State) (fuel : nat) (state0 : State) (tau T : F)
    (elog : list (F * F)) (log : list State) :
  ltb lit_0 T = false ->
  integrate_euler np_sin (S fuel) self tau T elog =
    Returns (([lit_0], [theta0 self], [lit_0]), elog)
  /\ integrate_RK2 (S fuel) state0 tau T log = Returns (([lit_0], [state0]), log)
  /\ integrate_RK4_first (S fuel) state0 tau T log =
       Returns (([lit_0], [state0]), log)
  /\ integrate_RK4 rhs (S fuel) state0 tau T log =
       Returns (([lit_0], [state0]), log).
Proof.
  intros HT.
  unfold integrate_euler, integrate_RK2, integrate_RK2_with,
    integrate_RK4_first, integrate_RK4_first_with, integrate_RK4.
  repeat split; unfold bind; simpl while; simpl; rewrite HT; reflexivity.
Qed.

(** A right-hand side that raises at the initial state makes
    [integrate_RK4] raise the same, whatever [tau]: once [0 < T] the first
    thing a call does is to evaluate [rhs]. *)
Lemma integrate_RK4_evaluates_rhs_first (rhs : callable State) (fuel : nat)
    (state0 : State) (tau T : F) (log : list State) (e : exn) :
  ltb lit_0 T = true -> rhs state0 = Raises e ->
  integrate_RK4 rhs (S fuel) state0 tau T log = Raises e.
Proof.
  intros HT He. unfold integrate_RK4. apply bind_raises.
  rewrite while_step by exact HT. apply bind_raises.
  unfold RK4_body.
  rewrite (bind_returns _ _ _ (py_last_snoc [] state0 log)).
  apply bind_raises. unfold call. rewrite He. reflexivity.
Qed.

End DriverEntry.

(** The notebook's own [rhs] takes no argument: with it [integrate_RK4]
    raises [TypeError] as soon as [0 < T]. *)
Lemma integrate_RK4_notebook_rhs {F} `{Num F} {State} `{StateOps F State}
    (fuel : nat) (state0 : State) (tau T : F) (log : list State) :
  ltb lit_0 T = true ->
  integrate_RK4 notebook_rhs (S fuel) state0 tau T log = Raises TypeError.
Proof.
  intros HT. apply integrate_RK4_evaluates_rhs_first; [exact HT|reflexivity].
Qed.

(** ** Exact arithmetic: the order on [Q] behind the tests of the loops *)

Lemma ltb_Q_true (a b : Q) : ltb a b = true <-> (a < b)%Q.
Proof.
  simpl. rewrite negb_true_iff.
  split.
  - intros Hb. apply Qnot_le_lt. intros Hle.
    apply Qle_bool_iff in Hle. congruence.
  - intros Hlt. destruct (Qle_bool b a) eqn:E; [|reflexivity].
    apply Qle_bool_iff in E. exfalso. apply (Qlt_not_le _ _ Hlt E).
Qed.

Lemma ltb_Q_false (a b : Q) : ltb a b = false <-> (b <= a)%Q.
Proof.
  simpl. rewrite negb_false_iff. apply Qle_bool_iff.
Qed.

Lemma clamp_Q_cases (t tau T : Q) :
  ((t + tau <= T)%Q /\ clamp t tau T = tau)
  \/ ((T < t + tau)%Q /\ clamp t tau T = (T - t)%Q).
Proof.
  unfold clamp, gtb.
  destruct (ltb T (add t tau)) eqn:E.
  - right. split; [apply ltb_Q_true; exact E | reflexivity].
  - left. split; [apply ltb_Q_false; exact E | reflexivity].
Qed.

(** In exact arithmetic [0.5 * x] and [x / 2] are the same fraction. *)
Lemma half_law_Q : @half_law Q _.
Proof.
  intros [a b]. unfold mul, div, lit_0_5, lit_2; simpl.
  unfold Qdiv, Qmult, Qinv; simpl.
  f_equal; [destruct a; reflexivity || (simpl; f_equal; lia) | lia].
Qed.

Lemma qn_succ (k : nat) : (qn (S k) == qn k + 1)%Q.
Proof.
  unfold qn. rewrite Nat2Z.inj_succ. unfold Z.succ.
  rewrite inject_Z_plus. reflexivity.
Qed.

Lemma qn_0 : (qn 0 == 0)%Q.
Proof. reflexivity. Qed.

(** [steps tau T] is the number [n] with [(n - 1) tau < T <= n tau]. *)
Lemma steps_spec (tau T : Q) :
  (0 < tau)%Q -> (0 < T)%Q ->
  exists j, steps tau T = S j
    /\ (qn j * tau < T)%Q /\ (T <= qn (S j) * tau)%Q.
Proof.
  intros Htau HT.
  assert (Hne : ~ (tau == 0)%Q) by (intros E; rewrite E in Htau; inversion Htau).
  assert (Hx : (T / tau * tau == T)%Q) by (field; exact Hne).
  assert (Hpos : (0 < T / tau)%Q).
  { apply Qlt_shift_div_l; [exact Htau | lra]. }
  pose proof (Qle_ceiling (T / tau)) as Hup.
  pose proof (Qceiling_lt (T / tau)) as Hlo.
  set (c := Qceiling (T / tau)) in *.
  assert (Hc : (0 < c)%Z).
  { apply Z.lt_nge. intros Hle.
    assert ((inject_Z c <= 0)%Q) by (rewrite Zle_Qle in Hle; exact Hle).
    lra. }
  exists (Z.to_nat (c - 1)).
  assert (Hs : steps tau T = S (Z.to_nat (c - 1))).
  { unfold steps. fold c. lia. }
  split; [exact Hs|].
  assert (Hq1 : qn (Z.to_nat (c - 1)) = inject_Z (c - 1)).
  { unfold qn. rewrite Z2Nat.id by lia. reflexivity. }
  assert (Hq2 : qn (S (Z.to_nat (c - 1))) = inject_Z c).
  { unfold qn. f_equal. lia. }
  rewrite Hq1, Hq2. split.
  - apply Qlt_le_trans with (T / tau * tau)%Q; [|lra].
    apply Qmult_lt_compat_r; assumption.
  - apply Qle_trans with (T / tau * tau)%Q; [lra|].
    apply Qmult_le_compat_r; [exact Hup | lra].
Qed.

(** ** Exact arithmetic: the clamped march from 0 to T *)

Section ExactMarch.

Context {State : Type} `{StateOps Q State}.

Variable body : rk_vars (F:=Q) (State:=State) -> M State (rk_vars (F:=Q) (State:=State)).
Variables tau T : Q.
Hypothesis Hm : marches body T.
Hypothesis Htau : (0 < tau)%Q.

Let cond : rk_vars (F:=Q) (State:=State) -> bool := fun v => ltb (v_t v) T.

(** With [j + 1] steps left the loop takes exactly these and stops on [T]. *)
Lemma march_loop :
  forall j v log h s,
    (qn j * tau < T - v_t v)%Q -> (T - v_t v <= qn (S j) * tau)%Q ->
    (v_tau v == tau)%Q -> history v = h ++ [s] ->
    exists v' log',
      while (S (S j)) cond body v log = Returns (v', log')
      /\ extends_by T v v' (S j).
Proof.
  induction j as [|j IH]; intros v log h s Hlo Hhi Hvt Hh.
  - (* the last step *)
    rewrite qn_succ, qn_0 in Hhi. rewrite qn_0 in Hlo.
    destruct (Hm v log h s Hh) as (s' & log' & Hb).
    set (c := clamp (v_t v) (v_tau v) T) in *.
    assert (Hc : (v_t v + c == T)%Q).
    { unfold c. destruct (clamp_Q_cases (v_t v) (v_tau v) T) as [[Hle ->]|[Hlt ->]];
        lra. }
    eexists; exists log'. split.
    + rewrite while_step by (apply ltb_Q_true; lra).
      rewrite (bind_returns _ _ _ Hb).
      apply while_done. unfold cond. apply ltb_Q_false. simpl. lra.
    + exists [(v_t v + c)%Q], [s']. simpl.
      split; [reflexivity|]. split; [reflexivity|].
      split; [reflexivity|]. split; [reflexivity|].
      split; [split; [lra | exact I]|].
      split; [constructor; [lra | constructor] | exact Hc].
  - (* a full step, then the rest *)
    rewrite qn_succ in Hlo. rewrite (qn_succ (S j)) in Hhi.
    assert (Hq : (0 <= qn j)%Q).
    { unfold qn. change 0%Q with (inject_Z 0). rewrite <- Zle_Qle. lia. }
    destruct (Hm v log h s Hh) as (s' & log' & Hb).
    set (c := clamp (v_t v) (v_tau v) T) in *.
    assert (Hc : c = v_tau v).
    { unfold c. destruct (clamp_Q_cases (v_t v) (v_tau v) T) as [[Hle ->]|[Hlt _]];
        [reflexivity | exfalso; nra]. }
    set (v1 := {| v_t := (v_t v + c)%Q; v_tau := c;
                  times := times v ++ [(v_t v + c)%Q];
                  history := history v ++ [s'] |}) in *.
    destruct (IH v1 log' (history v) s') as (v' & log'' & Hw & Hext).
    + simpl. rewrite Hc. nra.
    + simpl. rewrite Hc. nra.
    + simpl. rewrite Hc. exact Hvt.
    + reflexivity.
    + exists v', log''. split.
      * rewrite while_step by (apply ltb_Q_true; nra).
        rewrite (bind_returns _ _ _ Hb). exact Hw.
      * destruct Hext as (ext & hext & Ht & Hhist & Hl1 & Hl2 & Hasc & Hall & Hlast).
        exists ((v_t v + c)%Q :: ext), (s' :: hext).
        simpl in Ht, Hhist, Hasc.
        rewrite Ht, Hhist, <- !app_assoc. simpl.
        split; [reflexivity|]. split; [reflexivity|].
        split; [f_equal; exact Hl1|]. split; [f_equal; exact Hl2|].
        split; [split; [rewrite Hc; nra | exact Hasc]|].
        split; [constructor; [rewrite Hc; nra | exact Hall]|].
        destruct ext as [|x ext]; [discriminate | exact Hlast].
Qed.

End ExactMarch.

(** ** Exact arithmetic: the three Runge-Kutta drivers *)

Section ExactDrivers.

Context {State : Type} `{StateOps Q State}.

Variable rhs : callable State.
Hypothesis Hrhs : always_returns rhs.

(** Runs the next call of [rhs] in the goal. *)
Ltac next_call :=
  match goal with
  | |- context [call rhs ?x] =>
      let d := fresh "k" in
      let E := fresh "E" in
      destruct (Hrhs x) as [d E];
      rewrite (bind_returns _ _ _ (call_returns rhs x _ E));
      cbn beta zeta
  end.

Lemma RK4_body_marches (T : Q) : marches (RK4_body rhs T) T.
Proof.
  intros v log h s Hh. unfold RK4_body. rewrite Hh.
  rewrite (bind_returns _ _ _ (py_last_snoc h s log)). cbn beta zeta.
  do 4 next_call.
  eexists; eexists. reflexivity.
Qed.

Lemma RK4_first_body_marches (T : Q) : marches (RK4_first_body (Obj rhs) T) T.
Proof.
  intros v log h s Hh. unfold RK4_first_body. rewrite Hh.
  rewrite (bind_returns _ _ _ (py_last_snoc h s log)). cbn beta zeta.
  unfold get_rhs.
  do 4 (rewrite (bind_returns _ _ _ eq_refl); next_call).
  eexists; eexists. reflexivity.
Qed.

Lemma RK2_body_marches (T : Q) : marches (RK2_body (Obj rhs) T) T.
Proof.
  intros v log h s Hh. unfold RK2_body. rewrite Hh.
  rewrite (bind_returns _ _ _ (py_last_snoc h s log)). cbn beta zeta.
  unfold get_rhs.
  do 2 (rewrite (bind_returns _ _ _ eq_refl); next_call).
  eexists; eexists. reflexivity.
Qed.

End ExactDrivers.

Lemma ascending_sorted (l : list Q) :
  forall lo, ascending lo l -> StronglySorted Qlt (lo :: l).
Proof.
  induction l as [|x l IH]; intros lo Hasc.
  - constructor; constructor.
  - destruct Hasc as [Hlt Hasc].
    specialize (IH x Hasc).
    constructor; [exact IH|].
    constructor; [exact Hlt|].
    inversion IH as [|? ? _ Hall]; subst.
    eapply Forall_impl; [|exact Hall].
    intros y Hy. exact (Qlt_trans _ _ _ Hlt Hy).
Qed.

Section ExactRuns.

Context {State : Type} `{StateOps Q State}.

Variable body : rk_vars (F:=Q) (State:=State) -> M State (rk_vars (F:=Q) (State:=State)).
Variables tau T : Q.
Variable state0 : State.
Hypothesis Hm : marches body T.
Hypothesis Htau : (0 < tau)%Q.
Hypothesis HT : (0 < T)%Q.

Let v0 : rk_vars (F:=Q) (State:=State) :=
  {| v_t := 0%Q; v_tau := tau; times := [0%Q]; history := [state0] |}.

(** From the initial variables the loop ends, within [steps tau T + 1] tests
    of its condition, having taken [steps tau T] steps. *)
Lemma march_from_zero (log : list State) (k : nat) :
  exists v' log',
    while (S (steps tau T) + k) (fun v => ltb (v_t v) T) body v0 log
      = Returns (v', log')
    /\ extends_by T v0 v' (steps tau T).
Proof.
  destruct (steps_spec Htau HT) as (j & Hs & Hlo & Hhi).
  rewrite Hs.
  destruct (march_loop Hm Htau (j:=j) v0 log [] state0) as (v' & log' & Hw & Hext).
  - simpl. lra.
  - simpl. lra.
  - reflexivity.
  - reflexivity.
  - exists v', log'. split; [|exact Hext].
    apply while_fuel_mono; [exact Hw | discriminate].
Qed.

Lemma extends_ends_on (v' : rk_vars) (log' : list State) n :
  extends_by T v0 v' n -> n <> 0%nat ->
  ends_on T (Returns ((times v', history v'), log')).
Proof.
  intros (ext & hext & Ht & Hh & Hl1 & Hl2 & Hasc & Hall & Hlast) Hn.
  exists (times v'), (history v'), log'.
  split; [reflexivity|].
  rewrite Ht. simpl.
  destruct ext as [|x ext]; [simpl in Hl1; congruence|].
  split; [exact Hlast|].
  constructor; [lra | exact Hall].
Qed.

Lemma extends_trajectory (v' : rk_vars) (log' : list State) n :
  extends_by T v0 v' n ->
  trajectory_of n T state0 (Returns ((times v', history v'), log')).
Proof.
  intros (ext & hext & Ht & Hh & Hl1 & Hl2 & Hasc & Hall & Hlast).
  exists (times v'), (history v'), log'.
  split; [reflexivity|].
  rewrite Ht, Hh. simpl.
  split; [f_equal; exact Hl1|]. split; [f_equal; exact Hl2|].
  split; [reflexivity|]. split; [reflexivity|].
  split; [apply ascending_sorted; exact Hasc|].
  constructor; [lra | exact Hall].
Qed.

End ExactRuns.

Lemma steps_nonzero (tau T : Q) : (0 < tau)%Q -> (0 < T)%Q -> steps tau T <> 0%nat.
Proof.
  intros Htau HT. destruct (steps_spec Htau HT) as (j & Hs & _). lia.
Qed.

Section ExactTheorems.

Context {State : Type} `{StateOps Q State}.

Variable rhs : callable State.
Variable state0 : State.
Variables tau T : Q.
Variable log : list State.
Variable k : nat.

(** In exact arithmetic, for every initial state, [tau > 0] and [T > 0] and
    a right-hand side that returns, the loop of [integrate_RK4] ends (fuel
    [steps tau T + 1] or more) and the returned trajectory has [T] as its
    last time and no time above [T]; so do [integrate_RK2] and the first
    [integrate_RK4] once an object with [rhs] stands for the placeholder. *)
Lemma exact_drivers_end_on_T :
  always_returns rhs -> (0 < tau)%Q -> (0 < T)%Q ->
  let fuel := (S (steps tau T) + k)%nat in
  ends_on T (integrate_RK4 rhs fuel state0 tau T log)
  /\ ends_on T (integrate_RK2_with (Obj rhs) fuel state0 tau T log)
  /\ ends_on T (integrate_RK4_first_with (Obj rhs) fuel state0 tau T log).
Proof.
  intros Hrhs Htau HT fuel.
  pose proof (steps_nonzero Htau HT) as Hn.
  split; [|split].
  - destruct (march_from_zero state0 (RK4_body_marches Hrhs T) Htau HT log k)
      as (v' & log' & Hw & Hext).
    unfold integrate_RK4, fuel. rewrite (bind_returns _ _ _ Hw).
    eapply extends_ends_on; eassumption.
  - destruct (march_from_zero state0 (RK2_body_marches Hrhs T) Htau HT log k)
      as (v' & log' & Hw & Hext).
    unfold integrate_RK2_with, fuel. simpl app. rewrite (bind_returns _ _ _ Hw).
    eapply extends_ends_on; eassumption.
  - destruct (march_from_zero state0 (RK4_first_body_marches Hrhs T) Htau HT log k)
      as (v' & log' & Hw & Hext).
    unfold integrate_RK4_first_with, fuel. simpl app.
    rewrite (bind_returns _ _ _ Hw).
    eapply extends_ends_on; eassumption.
Qed.

(** In exact arithmetic, for every initial state, [tau > 0] and [T > 0] and
    a right-hand side that returns, the trajectory [integrate_RK4] returns
    has [ceil(T / tau) + 1] entries, the first one [(0, state0)], times that
    increase strictly and none above [T]; so do [integrate_RK2] and the
    first [integrate_RK4] once an object with [rhs] stands for the
    placeholder.  On binary64 the number of entries can differ. *)
Lemma exact_drivers_trajectory :
  always_returns rhs -> (0 < tau)%Q -> (0 < T)%Q ->
  let fuel := (S (steps tau T) + k)%nat in
  let n := Z.to_nat (Qceiling (T / tau)) in
  trajectory_of n T state0 (integrate_RK4 rhs fuel state0 tau T log)
  /\ trajectory_of n T state0 (integrate_RK2_with (Obj rhs) fuel state0 tau T log)
  /\ trajectory_of n T state0
       (integrate_RK4_first_with (Obj rhs) fuel state0 tau T log).
Proof.
  intros Hrhs Htau HT fuel n.
  split; [|split].
  - destruct (march_from_zero state0 (RK4_body_marches Hrhs T) Htau HT log k)
      as (v' & log' & Hw & Hext).
    unfold integrate_RK4, fuel. rewrite (bind_returns _ _ _ Hw).
    eapply extends_trajectory; eassumption.
  - destruct (march_from_zero state0 (RK2_body_marches Hrhs T) Htau HT log k)
      as (v' & log' & Hw & Hext).
    unfold integrate_RK2_with, fuel. simpl app. rewrite (bind_returns _ _ _ Hw).
    eapply extends_trajectory; eassumption.
  - destruct (march_from_zero state0 (RK4_first_body_marches Hrhs T) Htau HT log k)
      as (v' & log' & Hw & Hext).
    unfold integrate_RK4_first_with, fuel. simpl app.
    rewrite (bind_returns _ _ _ Hw).
    eapply extends_trajectory; eassumption.
Qed.

End ExactTheorems.

(** ** The Euler loop only appends *)

Section EulerLoop.

Context {F : Type} `{Num F}.
Variable np_sin : F -> F.
Variable self : SimplePendulum (F:=F).
Variables dt tmax : F.

Lemma euler_body_inv (v v1 : euler_vars) (log log1 : list (F * F)) :
  euler_body np_sin self dt v log = Returns (v1, log1) ->
  exists theta' omega',
    v1 = {| e_t := add (e_t v) dt;
            t_s := t_s v ++ [add (e_t v) dt];
            theta_s := theta_s v ++ [theta'];
            omega_s := omega_s v ++ [omega'] |}.
Proof.
  unfold euler_body, bind, py_last, ret, raise.
  destruct (nth_error (theta_s v) _); [|discriminate].
  destruct (nth_error (omega_s v) _); [|discriminate].
  rewrite rhs_eq.
  destruct (eqb (L self) lit_0); [discriminate|].
  simpl. intros E. injection E as <- _. eauto.
Qed.

Lemma euler_loop_appends :
  forall fuel (v v' : euler_vars) (log log' : list (F * F)),
    while fuel (fun v => ltb (e_t v) tmax) (euler_body np_sin self dt) v log
      = Returns (v', log') ->
    exists e1 e2 e3,
      t_s v' = t_s v ++ e1 /\ theta_s v' = theta_s v ++ e2
      /\ omega_s v' = omega_s v ++ e3
      /\ length e2 = length e1 /\ length e3 = length e1.
Proof.
  induction fuel as [|fuel IH]; intros v v' log log' Hw.
  - discriminate.
  - simpl in Hw. destruct (ltb (e_t v) tmax).
    + unfold bind in Hw.
      destruct (euler_body np_sin self dt v log) as [[v1 log1]| |] eqn:Hb;
        try discriminate.
      destruct (euler_body_inv _ _ Hb) as (theta' & omega' & ->).
      destruct (IH _ _ _ _ Hw) as (e1 & e2 & e3 & H1 & H2 & H3 & L2 & L3).
      simpl in H1, H2, H3.
      exists (add (e_t v) dt :: e1), (theta' :: e2), (omega' :: e3).
      rewrite H1, H2, H3, <- !app_assoc. simpl.
      repeat split; f_equal; assumption.
    + injection Hw as <- _.
      exists [], [], []. rewrite !app_nil_r. repeat split.
Qed.

End EulerLoop.

Lemma integrate_RK4_more_fuel {F} `{Num F} {State} `{StateOps F State}
    (rhs : callable State) fuel k (state0 : State) (tau T : F) log r :
  integrate_RK4 rhs fuel state0 tau T log = Returns r ->
  integrate_RK4 rhs (fuel + k) state0 tau T log = Returns r.
Proof.
  unfold integrate_RK4, bind.
  destruct (while fuel _ _ _ log) as [[v log']| |] eqn:E; try discriminate.
  rewrite (while_fuel_mono _ _ _ _ _ E) by discriminate.
  trivial.
Qed.

(** ** binary64: the order at zero, the literals, the value of [exp (-1)] *)

(** On doubles [T <= 0] makes the loop test [0 < T] fail. *)
Lemma float_le_0_not_gt (T : float) :
  PrimFloat.leb T 0 = true -> PrimFloat.ltb 0 T = false.
Proof.
  rewrite leb_spec, ltb_spec.
  unfold SFleb, SFltb.
  change (Prim2SF 0) with (S754_zero false).
  destruct (Prim2SF T) as [s|s| |s m e]; simpl; try destruct s; simpl;
    congruence.
Qed.

(** On rationals the loop test [0 < T] fails exactly when [T <= 0]. *)
Lemma Q_le_0_iff_not_gt (T : Q) : ltb 0%Q T = false <-> (T <= 0)%Q.
Proof. apply ltb_Q_false. Qed.

#[local] Set Warnings "-inexact-float".

(** The doubles the decimal literals of the cells denote. *)
Lemma literals_as_written :
  lit_0_1 = 0.1%float /\ lit_0_3 = 0.3%float /\ lit_9_81 = 9.81%float
  /\ lit_0_5 = 0.5%float /\ pi64 = 3.141592653589793%float
  /\ np_radians64 lit_10 = 0.17453292519943295%float.
Proof. repeat split; reflexivity. Qed.

#[local] Set Warnings "+inexact-float".

Lemma fact_INR (n : nat) (z : Z) : Z.of_nat (fact n) = z -> INR (fact n) = IZR z.
Proof. intros <-. apply INR_IZR_INZ. Qed.

(** [exp (-1)] between two partial sums of its alternating series. *)
Lemma exp_minus_1_bounds :
  (3678791 / 10000000 < exp (-1) < 3678820 / 10000000)%R.
Proof.
  unfold exp. destruct (exist_exp (-1)) as [x Hx]. simpl proj1_sig.
  unfold exp_in in Hx.
  assert (Hb : (sum_f_R0 (tg_alt (fun i => / INR (fact i))) 9 <= x
                <= sum_f_R0 (tg_alt (fun i => / INR (fact i))) 8)%R).
  { apply (alternated_series_ineq (fun i => / INR (fact i))%R x 4).
    - intros n. apply Rinv_le_contravar; [apply INR_fact_lt_0|].
      apply le_INR, fact_le. lia.
    - intros eps Heps.
      destruct (cv_speed_pow_fact 1 eps Heps) as [N HN].
      exists N. intros n Hn. specialize (HN n Hn).
      rewrite pow1 in HN. unfold Rdiv in HN. rewrite Rmult_1_l in HN. exact HN.
    - intros eps Heps. destruct (Hx eps Heps) as [N HN].
      exists N. intros n Hn. specialize (HN n Hn).
      rewrite (sum_eq _ (fun i => / INR (fact i) * (-1) ^ i)%R); [exact HN|].
      intros i _. unfold tg_alt. apply Rmult_comm. }
  cbv beta iota delta [sum_f_R0 tg_alt pow] in Hb.
  rewrite (@fact_INR 0 1), (@fact_INR 1 1), (@fact_INR 2 2), (@fact_INR 3 6),
    (@fact_INR 4 24), (@fact_INR 5 120), (@fact_INR 6 720),
    (@fact_INR 7 5040), (@fact_INR 8 40320), (@fact_INR 9 362880) in Hb
    by reflexivity.
  lra.
Qed.

(** ** The scenarios on binary64 *)

(** The notebook's run: the loop returns with 201 times recorded, whatever
    [np.sin] computes. *)
Lemma euler_scenario_loop (np_sin : float -> float) :
  returned_with_times 201
    (while 201 (fun v => ltb (e_t v) lit_20)
       (euler_body np_sin
          (SimplePendulum_init np_radians64 lit_10 lit_9_81 lit_9_81) lit_0_1)
       {| e_t := 0%float; t_s := [0%float];
          theta_s := [np_radians64 lit_10]; omega_s := [0%float] |} [])
  = true.
Proof. vm_compute. reflexivity. Qed.

(** C7: [SimplePendulum(10).integrate_euler(0.1, 20)], with [g = L = 9.81],
    returns three arrays of 201 samples each; the first angle is
    [radians(10)], the double 0.17453292519943295, which is 0.1745 to four
    decimals, and the first angular velocity is 0. *)
Theorem euler_scenario (np_sin : float -> float) (k : nat) :
  let p10 := SimplePendulum_init np_radians64 lit_10 lit_9_81 lit_9_81 in
  exists ts ths oms log q,
    integrate_euler np_sin (201 + k) p10 lit_0_1 lit_20 []
      = Returns ((ts, ths, oms), log)
    /\ length ts = 201%nat /\ length ths = 201%nat /\ length oms = 201%nat
    /\ hd_error ths = Some (np_radians64 lit_10)
    /\ float_value (np_radians64 lit_10) = Some q
    /\ (17445 # 100000 < q)%Q /\ (q < 17455 # 100000)%Q
    /\ hd_error oms = Some 0%float.
Proof.
  intros p10.
  pose proof (euler_scenario_loop np_sin) as Hc.
  match type of Hc with
  | returned_with_times _ ?w = true => remember w as r eqn:Hw
  end.
  destruct r as [[v log]|e|]; [|discriminate Hc|discriminate Hc].
  cbn [returned_with_times] in Hc. apply Nat.eqb_eq in Hc.
  symmetry in Hw.
  pose proof Hw as Happ. apply euler_loop_appends in Happ.
  destruct Happ as (e1 & e2 & e3 & H1 & H2 & H3 & L2 & L3).
  cbn [t_s theta_s omega_s] in H1, H2, H3.
  apply (while_fuel_mono _ _ _ _ _) with (k := k) in Hw; [|discriminate].
  exists (t_s v), (theta_s v), (omega_s v), log.
  exists (6288211335136391 # 36028797018963968)%Q.
  split.
  { unfold integrate_euler. rewrite (bind_returns _ _ _ Hw). reflexivity. }
  clear Hw.
  rewrite H1 in Hc. simpl in Hc.
  rewrite H1, H2, H3. simpl. rewrite L2, L3.
  split; [f_equal; lia|]. split; [f_equal; lia|]. split; [f_equal; lia|].
  split; [reflexivity|].
  split; [vm_compute; reflexivity|].
  split; [reflexivity|]. split; reflexivity.
Qed.

(** C9: [integrate_RK4] on [rhs(y) = -y] from [y0 = 1] with [tau = 0.1] and
    [T = 1] returns a last state that is within 1e-5 of [exp (-1)].  (The
    trajectory has 12 entries: the accumulated time reaches 1 only in an
    eleventh, clamped step.) *)
Theorem decay_scenario (k : nat) :
  exists ts hs log y q,
    integrate_RK4 decay_rhs (12 + k) 1%float lit_0_1 1%float []
      = Returns ((ts, hs), log)
    /\ length ts = 12%nat
    /\ last hs 0%float = y
    /\ y = 0x1.78b579bfd89d7p-2%float
    /\ float_value y = Some q
    /\ (Rabs (Q2R q - exp (-1)) < 1 / 100000)%R.
Proof.
  pose proof (integrate_RK4_more_fuel decay_rhs 12 k 1%float lit_0_1 1%float [])
    as Hmore.
  destruct (integrate_RK4 decay_rhs 12 1%float lit_0_1 1%float [])
    as [[[ts hs] log]| |] eqn:E; [|vm_compute in E; discriminate E ..].
  exists ts, hs, log, 0x1.78b579bfd89d7p-2%float.
  exists (6627132859845079 # 18014398509481984)%Q.
  split; [apply Hmore; reflexivity|].
  vm_compute in E. injection E as <- <- _.
  split; [reflexivity|]. split; [reflexivity|]. split; [reflexivity|].
  split; [vm_compute; reflexivity|].
  pose proof exp_minus_1_bounds as [Hlo Hhi].
  unfold Q2R; simpl Qnum; simpl Qden.
  apply Rabs_def1; lra.
Qed.

(** ** Inputs on which the stated claims fail *)

(** C1 fails on [integrate_euler]: its loop has no clamp.  With [dt = 0.3]
    and [tmax = 1] the recorded times are 0, 0.3, 0.6, 0.9 (to rounding)
    and 1.2: the last one is above [tmax]. *)
Lemma integrate_euler_overshoots :
  PrimFloat.ltb 0 lit_0_3 = true /\ PrimFloat.ltb 0 1 = true
  /\ forall np_sin : float -> float,
       euler_times
         (integrate_euler np_sin 5
            (SimplePendulum_init np_radians64 lit_10 lit_9_81 lit_9_81)
            lit_0_3 1%float [])
       = Some [0%float; lit_0_3; 0x1.3333333333333p-1%float;
               0x1.cccccccccccccp-1%float; 0x1.3333333333333p+0%float]
       /\ PrimFloat.ltb 1 0x1.3333333333333p+0 = true
       /\ PrimFloat.eqb 0x1.3333333333333p+0 1 = false.
Proof.
  split; [reflexivity|]. split; [reflexivity|].
  intros np_sin. split; [vm_compute; reflexivity|].
  split; reflexivity.
Qed.

(** C3 fails for a right-hand side that depends on the time.  With
    [rhs(y, t) = t] the recurrence of the claim, from the state 1 with the
    step 1, gives 1.5 at [t = 0] and 3.5 at [t = 2]; the loop body passes no
    time to [rhs]: whatever callable [rhs] is, the states it appends at the
    two times are the same (the step is not clamped, [T = 10]). *)
Lemma RK4_body_passes_no_time :
  let g : float -> float -> float := fun _ t => t in
  let at_time (t : float) :=
    {| v_t := t; v_tau := 1%float; times := [t]; history := [1%float] |} in
  snd (RK4_step_spec g 1%float 0%float 1%float) = 1.5%float
  /\ snd (RK4_step_spec g 1%float 2%float 1%float) = 3.5%float
  /\ forall (rhs : callable float) (log : list float),
       appended (RK4_body rhs 10%float (at_time 0%float) log)
       = appended (RK4_body rhs 10%float (at_time 2%float) log).
Proof.
  intros g at_time. split; [reflexivity|]. split; [reflexivity|].
  intros rhs log. unfold RK4_body, at_time.
  cbn [history v_t v_tau times].
  replace (clamp 0%float 1%float 10%float) with 1%float by reflexivity.
  replace (clamp 2%float 1%float 10%float) with 1%float by reflexivity.
  unfold py_last, bind, call, ret. cbn [length Nat.sub nth_error].
  repeat match goal with
  | |- context [rhs ?x] => destruct (rhs x) as [?k| |]; cbn beta iota zeta;
                           try reflexivity
  end.
Qed.

(** C4 fails on the cell as it is written: the pass raises [AttributeError]
    at ["insert_here".rhs].  And with an object in the place of the string
    the time still does not reach [rhs]: with [rhs(y, t) = t] the
    recurrence of the claim gives 1.5 at [t = 0] and 3.5 at [t = 2], the
    loop body the same state at both. *)
Lemma RK2_body_as_written :
  let g : float -> float -> float := fun _ t => t in
  let at_time (t : float) :=
    {| v_t := t; v_tau := 1%float; times := [t]; history := [1%float] |} in
  RK2_body (Str "insert_here") 10%float (at_time 0%float) [] = Raises AttributeError
  /\ snd (RK2_step_spec g 1%float 0%float 1%float) = 1.5%float
  /\ snd (RK2_step_spec g 1%float 2%float 1%float) = 3.5%float
  /\ forall (rhs : callable float) (log : list float),
       appended (RK2_body (Obj rhs) 10%float (at_time 0%float) log)
       = appended (RK2_body (Obj rhs) 10%float (at_time 2%float) log).
Proof.
  intros g at_time. split; [reflexivity|]. split; [reflexivity|]. split; [reflexivity|].
  intros rhs log. unfold RK2_body, at_time.
  cbn [history v_t v_tau times].
  replace (clamp 0%float 1%float 10%float) with 1%float by reflexivity.
  replace (clamp 2%float 1%float 10%float) with 1%float by reflexivity.
  unfold py_last, get_rhs, bind, call, ret. cbn [length Nat.sub nth_error].
  repeat match goal with
  | |- context [rhs ?x] => destruct (rhs x) as [?k| |]; cbn beta iota zeta;
                           try reflexivity
  end.
Qed.


(** C2 fails: a call with [T = 0] is not rejected, it returns the initial
    entry. *)
Lemma integrate_RK4_accepts_zero_T :
  PrimFloat.leb 0 0 = true
  /\ forall fuel,
       integrate_RK4 decay_rhs (S fuel) 1%float lit_0_1 0%float []
         = Returns (([0%float], [1%float]), [])
       /\ raised (integrate_RK4 decay_rhs (S fuel) 1%float lit_0_1 0%float [])
          = false.
Proof.
  split; [reflexivity|]. intros fuel. split; reflexivity.
Qed.

(** ** Exact arithmetic: a step that is not positive *)

(** With [tau <= 0 < T] a marching loop never ends: the time stays at or
    below 0 and the clamp is never taken. *)
Lemma march_never_ends {State} (body : rk_vars (F:=Q) (State:=State) -> M State rk_vars)
    (T : Q) :
  marches body T -> (0 < T)%Q ->
  forall fuel v log h s,
    (v_t v <= 0)%Q -> (v_tau v <= 0)%Q -> history v = h ++ [s] ->
    while fuel (fun v => ltb (v_t v) T) body v log = NoFuel.
Proof.
  intros Hm HT. induction fuel as [|fuel IH]; intros v log h s Ht Htau Hh.
  - reflexivity.
  - rewrite while_step by (apply ltb_Q_true; lra).
    destruct (Hm v log h s Hh) as (s' & log' & Hb).
    rewrite (bind_returns _ _ _ Hb).
    assert (Hc : clamp (v_t v) (v_tau v) T = v_tau v).
    { destruct (clamp_Q_cases (v_t v) (v_tau v) T) as [[_ ->]|[Hlt _]];
        [reflexivity | exfalso; lra]. }
    apply (IH _ _ (history v) s'); simpl; rewrite ?Hc; try lra; reflexivity.
Qed.

(** So [integrate_RK4] is not rejected for [tau <= 0]: it runs for ever. *)
Lemma integrate_RK4_nonpositive_step {State} `{StateOps Q State}
    (rhs : callable State) (state0 : State) (tau T : Q) (log : list State) :
  always_returns rhs -> (tau <= 0)%Q -> (0 < T)%Q ->
  forall fuel, integrate_RK4 rhs fuel state0 tau T log = NoFuel.
Proof.
  intros Hrhs Htau HT fuel. unfold integrate_RK4. apply bind_nofuel.
  apply (march_never_ends (RK4_body_marches Hrhs T) HT) with (h := []) (s := state0);
    simpl; try lra; reflexivity.
Qed.

(** ** The statements at concrete inputs *)

Lemma drivers_accept_nonpositive_T_witness :
  PrimFloat.ltb 0 (-1) = false
  /\ forall np_sin : float -> float,
       let self := SimplePendulum_init np_radians64 lit_10 lit_9_81 lit_9_81 in
       integrate_euler np_sin 1 self lit_0_1 (-1)%float [] =
         Returns (([0%float], [theta0 self], [0%float]), [])
       /\ integrate_RK2 1 1%float lit_0_1 (-1)%float [] =
            Returns (([0%float], [1%float]), [])
       /\ integrate_RK4_first 1 1%float lit_0_1 (-1)%float [] =
            Returns (([0%float], [1%float]), [])
       /\ integrate_RK4 decay_rhs 1 1%float lit_0_1 (-1)%float [] =
            Returns (([0%float], [1%float]), []).
Proof.
  split; [reflexivity|].
  intros np_sin self.
  exact (@drivers_accept_nonpositive_T float _ float _ np_sin self decay_rhs
           0%nat 1%float lit_0_1 (-1)%float [] [] eq_refl).
Defined.

(** ** What a run leaves behind, in any arithmetic *)

Section RunShape.

Context {F : Type} `{Num F} {State : Type} `{StateOps F State}.

Variable rhs : callable State.

(** Splits the next call of [rhs] in the hypothesis [Hb]. *)
Ltac split_call Hb :=
  match type of Hb with
  | context [rhs ?x] =>
      let k := fresh "k" in
      let E := fresh "E" in
      destruct (rhs x) as [k| |] eqn:E; cbn beta iota zeta in Hb
  end.

Lemma RK4_body_steps (T : F) : steps_with 4 (RK4_body rhs T).
Proof.
  intros v log v1 log1 h s Hh Hb.
  unfold RK4_body in Hb. rewrite Hh in Hb.
  rewrite (bind_returns _ _ _ (py_last_snoc h s log)) in Hb.
  unfold bind, call, ret in Hb. cbn beta zeta in Hb.
  do 4 (split_call Hb; try discriminate Hb).
  injection Hb as <- <-. rewrite Hh.
  eexists; eexists; eexists.
  split; [reflexivity|]. split; [|shelve].
  rewrite <- !app_assoc. simpl. reflexivity.
  Unshelve. reflexivity.
Qed.

Lemma RK2_body_steps (T : F) : steps_with 2 (RK2_body (Obj rhs) T).
Proof.
  intros v log v1 log1 h s Hh Hb.
  unfold RK2_body in Hb. rewrite Hh in Hb.
  rewrite (bind_returns _ _ _ (py_last_snoc h s log)) in Hb.
  unfold get_rhs, bind, call, ret in Hb. cbn beta iota zeta in Hb.
  do 2 (split_call Hb; try discriminate Hb).
  injection Hb as <- <-. rewrite Hh.
  eexists; eexists; eexists.
  split; [reflexivity|]. split; [|shelve].
  rewrite <- !app_assoc. simpl. reflexivity.
  Unshelve. reflexivity.
Qed.


Lemma RK2_body_raises (T : F) (v : rk_vars) log h s e :
  history v = h ++ [s] ->
  RK2_body (Obj rhs) T v log = Raises e -> exists y, rhs y = Raises e.
Proof.
  intros Hh Hb.
  unfold RK2_body in Hb. rewrite Hh in Hb.
  rewrite (bind_returns _ _ _ (py_last_snoc h s log)) in Hb.
  unfold get_rhs, bind, call, ret in Hb. cbn beta iota zeta in Hb.
  do 2 (split_call Hb;
        [ | injection Hb as <-; eexists; eassumption | discriminate Hb]).
  discriminate Hb.
Qed.

End RunShape.

Lemma last_cons_default {A} (l : list A) (x d : A) :
  last (x :: l) d = last l x.
Proof.
  revert x d. induction l as [|y l IH]; intros x d; [reflexivity|].
  change (last (x :: y :: l) d) with (last (y :: l) d).
  rewrite !IH. reflexivity.
Qed.

Section LoopShape.

Context {F : Type} `{Num F} {State : Type}.

Variable body : rk_vars (F:=F) (State:=State) -> M State (rk_vars (F:=F) (State:=State)).
Variable T : F.
Variable c : nat.
Hypothesis Hs : steps_with c body.

Lemma loop_shape :
  forall fuel v log v' log' h s,
    history v = h ++ [s] ->
    while fuel (fun v => ltb (v_t v) T) body v log = Returns (v', log') ->
    exists ext hext calls,
      times v' = times v ++ ext /\ history v' = history v ++ hext
      /\ length hext = length ext
      /\ log' = log ++ calls /\ length calls = (c * length ext)%nat
      /\ ltb (v_t v') T = false
      /\ v_t v' = last ext (v_t v).
Proof.
  induction fuel as [|fuel IH]; intros v log v' log' h s Hh Hw;
    [discriminate Hw|].
  simpl in Hw. destruct (ltb (v_t v) T) eqn:Ec.
  - unfold bind in Hw.
    destruct (body v log) as [[v1 log1]| |] eqn:Hb; try discriminate Hw.
    destruct (Hs _ _ Hh Hb) as (tau' & s' & calls1 & -> & -> & Hlen).
    eapply IH in Hw; [|reflexivity].
    destruct Hw as (ext & hext & calls & Ht & Hhist & Hl & -> & Hc & Hex & Hlast).
    cbn [times history v_t] in Ht, Hhist, Hlast.
    exists (add (v_t v) tau' :: ext), (s' :: hext), (calls1 ++ calls).
    rewrite Ht, Hhist, <- !app_assoc. simpl app.
    split; [reflexivity|]. split; [reflexivity|].
    split; [simpl; f_equal; exact Hl|].
    split; [reflexivity|].
    split; [rewrite length_app, Hlen, Hc; simpl length; lia|].
    split; [exact Hex|].
    rewrite last_cons_default. exact Hlast.
  - injection Hw as <- <-.
    exists [], [], []. rewrite !app_nil_r, Nat.mul_0_r.
    repeat split; assumption.
Qed.

Variable P : exn -> Prop.
Hypothesis Hr :
  forall v log h s e, history v = h ++ [s] -> body v log = Raises e -> P e.


End LoopShape.

Section RunTheorems.

Context {F : Type} `{Num F} {State : Type} `{StateOps F State}.

Variable rhs : callable State.

(** X2: Whenever [integrate_RK4] returns, in any arithmetic: the two lists have
    the same length and start with [0] and [state0]; [rhs] has been
    evaluated exactly four times per recorded step; and the last recorded
    time [t] fails the loop test [t < T]. *)
Theorem integrate_RK4_run_shape (fuel : nat) (state0 : State) (tau T : F)
    (log : list State) ts hs log' :
  integrate_RK4 rhs fuel state0 tau T log = Returns ((ts, hs), log') ->
  length hs = length ts
  /\ hd_error ts = Some lit_0 /\ hd_error hs = Some state0
  /\ ltb (last ts lit_0) T = false
  /\ exists calls, log' = log ++ calls
       /\ length calls = (4 * (length ts - 1))%nat.
Proof.
  unfold integrate_RK4, bind. intros Hw.
  destruct (while fuel _ _ _ log) as [[v l]| |] eqn:E; try discriminate Hw.
  injection Hw as <- <- <-.
  eapply (loop_shape T (RK4_body_steps rhs T)) with (h := []) in E; [|reflexivity].
  destruct E as (ext & hext & calls & Ht & Hh & Hl & Hlog & Hc & Hex & Hlast).
  cbn [times history v_t] in Ht, Hh, Hlast.
  rewrite Ht, Hh. cbn [app length hd_error].
  split; [f_equal; exact Hl|]. split; [reflexivity|]. split; [reflexivity|].
  split.
  - rewrite last_cons_default, <- Hlast. exact Hex.
  - exists calls. split; [exact Hlog|]. rewrite Hc. f_equal. lia.
Qed.

(** X3: The same for [integrate_RK2], an object with [rhs] standing for the
    placeholder: two evaluations of [rhs] per recorded step. *)
Theorem integrate_RK2_run_shape (fuel : nat) (state0 : State) (tau T : F)
    (log : list State) ts hs log' :
  integrate_RK2_with (Obj rhs) fuel state0 tau T log = Returns ((ts, hs), log') ->
  length hs = length ts
  /\ hd_error ts = Some lit_0 /\ hd_error hs = Some state0
  /\ ltb (last ts lit_0) T = false
  /\ exists calls, log' = log ++ calls
       /\ length calls = (2 * (length ts - 1))%nat.
Proof.
  unfold integrate_RK2_with, bind. simpl app. intros Hw.
  destruct (while fuel _ _ _ log) as [[v l]| |] eqn:E; try discriminate Hw.
  injection Hw as <- <- <-.
  eapply (loop_shape T (RK2_body_steps rhs T)) with (h := []) in E; [|reflexivity].
  destruct E as (ext & hext & calls & Ht & Hh & Hl & Hlog & Hc & Hex & Hlast).
  cbn [times history v_t] in Ht, Hh, Hlast.
  rewrite Ht, Hh. cbn [app length hd_error].
  split; [f_equal; exact Hl|]. split; [reflexivity|]. split; [reflexivity|].
  split.
  - rewrite last_cons_default, <- Hlast. exact Hex.
  - exists calls. split; [exact Hlog|]. rewrite Hc. f_equal. lia.
Qed.

End RunTheorems.


(** ** The Euler driver, in any arithmetic *)

Section EulerRun.

Context {F : Type} `{Num F}.
Variable np_sin : F -> F.
Variable self : SimplePendulum (F:=F).
Variables dt tmax : F.

Lemma euler_body_returns (v : euler_vars) a b theta omega log :
  theta_s v = a ++ [theta] -> omega_s v = b ++ [omega] ->
  eqb (L self) lit_0 = false ->
  euler_body np_sin self dt v log =
  Returns ({| e_t := add (e_t v) dt;
              t_s := t_s v ++ [add (e_t v) dt];
              theta_s := theta_s v ++ [add theta (mul dt omega)];
              omega_s := omega_s v ++
                [add omega
                   (mul dt (mul (opp (div (g self) (L self))) (np_sin theta)))] |},
           log ++ [(theta, omega)]).
Proof.
  intros Ha Hb HL. unfold euler_body. rewrite Ha, Hb.
  rewrite (bind_returns _ _ _ (py_last_snoc a theta log)).
  rewrite (bind_returns _ _ _ (py_last_snoc b omega log)).
  unfold bind at 1. rewrite rhs_eq, HL. reflexivity.
Qed.

Lemma euler_body_zero_length (v : euler_vars) a b theta omega log :
  theta_s v = a ++ [theta] -> omega_s v = b ++ [omega] ->
  eqb (L self) lit_0 = true ->
  euler_body np_sin self dt v log = Raises ZeroDivisionError.
Proof.
  intros Ha Hb HL. unfold euler_body. rewrite Ha, Hb.
  rewrite (bind_returns _ _ _ (py_last_snoc a theta log)).
  rewrite (bind_returns _ _ _ (py_last_snoc b omega log)).
  unfold bind at 1. rewrite rhs_eq, HL. reflexivity.
Qed.

(** What the loop has done when it returns. *)
Lemma euler_loop_shape :
  forall fuel (v v' : euler_vars) log log' a b theta omega,
    theta_s v = a ++ [theta] -> omega_s v = b ++ [omega] ->
    while fuel (fun v => ltb (e_t v) tmax) (euler_body np_sin self dt) v log
      = Returns (v', log') ->
    exists e1 e2 e3,
      t_s v' = t_s v ++ e1 /\ theta_s v' = theta_s v ++ e2
      /\ omega_s v' = omega_s v ++ e3
      /\ length e2 = length e1
      /\ advances (e_t v) dt e1
      /\ euler_iterates np_sin (g self) (L self) dt theta omega e2 e3
      /\ e_t v' = last e1 (e_t v)
      /\ ltb (e_t v') tmax = false
      /\ log' = log ++ combine (removelast (theta :: e2)) (removelast (omega :: e3)).
Proof.
  induction fuel as [|fuel IH]; intros v v' log log' a b theta omega Ha Hb Hw;
    [discriminate Hw|].
  simpl in Hw. destruct (ltb (e_t v) tmax) eqn:Ec.
  - unfold bind in Hw.
    destruct (eqb (L self) lit_0) eqn:HL.
    { erewrite euler_body_zero_length in Hw; [|exact Ha|exact Hb|exact HL]. discriminate Hw. }
    erewrite euler_body_returns in Hw; [|exact Ha|exact Hb|exact HL].
    eapply IH in Hw; [|reflexivity|reflexivity].
    destruct Hw as (e1 & e2 & e3 & H1 & H2 & H3 & Hl & Hadv & Hit & Hlast & Hex & ->).
    cbn [t_s theta_s omega_s e_t] in H1, H2, H3, Hadv, Hlast.
    eexists (_ :: e1), (_ :: e2), (_ :: e3).
    rewrite H1, H2, H3, <- !app_assoc. cbn [app].
    split; [reflexivity|]. split; [reflexivity|]. split; [reflexivity|].
    split; [cbn [length]; f_equal; exact Hl|].
    split; [split; [reflexivity | exact Hadv]|].
    split; [split; [reflexivity | split; [reflexivity | exact Hit]]|].
    split; [rewrite last_cons_default; exact Hlast|].
    split; [exact Hex|].
    reflexivity.
  - injection Hw as <- <-.
    exists [], [], []. rewrite !app_nil_r. cbn.
    repeat split; try reflexivity. exact Ec.
Qed.

(** X5: Whenever [integrate_euler] returns, in any arithmetic: the three arrays
    start with [0], [theta0] and [0]; each time is the one before plus [dt];
    each sample [(theta, omega)] is the one before advanced by [dt] along
    [(omega, -(g/L) sin theta)]; the last time fails the loop test
    [t < tmax]; and [rhs] has been evaluated once at every sample but the
    last, in order. *)
Theorem integrate_euler_run_shape (fuel : nat) (log : list (F * F))
    ts ths oms log' :
  integrate_euler np_sin fuel self dt tmax log = Returns ((ts, ths, oms), log') ->
  exists e1 e2 e3,
    ts = lit_0 :: e1 /\ ths = theta0 self :: e2 /\ oms = lit_0 :: e3
    /\ length e2 = length e1 /\ length e3 = length e1
    /\ advances lit_0 dt e1
    /\ euler_iterates np_sin (g self) (L self) dt (theta0 self) lit_0 e2 e3
    /\ ltb (last ts lit_0) tmax = false
    /\ log' = log ++ combine (removelast ths) (removelast oms).
Proof.
  unfold integrate_euler, bind. intros Hw.
  destruct (while fuel _ _ _ log) as [[v l]| |] eqn:E; try discriminate Hw.
  injection Hw as <- <- <- <-.
  pose proof E as Happ. apply euler_loop_appends in Happ.
  destruct Happ as (e1' & e2' & e3' & H1' & H2' & H3' & L2 & L3).
  eapply euler_loop_shape with (a := []) (b := []) in E; [|reflexivity ..].
  destruct E as (e1 & e2 & e3 & H1 & H2 & H3 & Hl & Hadv & Hit & Hlast & Hex & Hlog).
  cbn [t_s theta_s omega_s e_t] in *.
  rewrite H1 in H1'. rewrite H2 in H2'. rewrite H3 in H3'.
  apply app_inv_head in H1', H2', H3'. subst e1' e2' e3'.
  exists e1, e2, e3. rewrite H1, H2, H3. cbn [app].
  split; [reflexivity|]. split; [reflexivity|]. split; [reflexivity|].
  split; [exact Hl|]. split; [exact L3|].
  split; [exact Hadv|]. split; [exact Hit|].
  split; [rewrite last_cons_default, <- Hlast; exact Hex|].
  exact Hlog.
Qed.

(** X6: With [L = 0] the division [self.g / self.L] raises in the first pass:
    the call raises [ZeroDivisionError] as soon as [0 < tmax], and returns
    the initial sample otherwise. *)
Theorem integrate_euler_zero_length (fuel : nat) (log : list (F * F)) :
  eqb (L self) lit_0 = true ->
  integrate_euler np_sin (S fuel) self dt tmax log =
    if ltb lit_0 tmax then Raises ZeroDivisionError
    else Returns (([lit_0], [theta0 self], [lit_0]), log).
Proof.
  intros HL. unfold integrate_euler, bind. simpl while. cbn [e_t].
  destruct (ltb lit_0 tmax); [|reflexivity].
  unfold bind.
  erewrite euler_body_zero_length with (a := []) (b := []);
    [|reflexivity|reflexivity|exact HL].
  reflexivity.
Qed.

(** X7: With [L] not zero [integrate_euler] raises nothing, whatever the fuel:
    its indexings [theta_s[-1]], [omega_s[-1]] and its unpacking of [rhs]
    cannot fail. *)
Theorem integrate_euler_never_raises (fuel : nat) (log : list (F * F)) :
  eqb (L self) lit_0 = false ->
  raised (integrate_euler np_sin fuel self dt tmax log) = false.
Proof.
  intros HL. unfold integrate_euler, bind.
  assert (Hloop : forall fuel v log a b theta omega,
             theta_s v = a ++ [theta] -> omega_s v = b ++ [omega] ->
             forall e,
               while fuel (fun v => ltb (e_t v) tmax) (euler_body np_sin self dt)
                 v log <> Raises e).
  { clear fuel log.
    induction fuel as [|fuel IH]; intros v log a b theta omega Ha Hb e;
      [discriminate|].
    simpl. destruct (ltb (e_t v) tmax); [|discriminate].
    unfold bind. erewrite euler_body_returns; [|exact Ha|exact Hb|exact HL].
    eapply IH; reflexivity. }
  destruct (while fuel _ _ _ log) as [[v l]|e|] eqn:E; try reflexivity.
  exfalso. eapply (Hloop fuel _ log [] []); [| |exact E]; reflexivity.
Qed.

End EulerRun.

(** ** binary64: [0.5 * x] is [x / 2] *)

Section Binary64Half.

Local Open Scope Z_scope.

Lemma SFhalf_SFtwo : Prim2SF 0.5 = SFhalf /\ Prim2SF 2 = SFtwo.
Proof. split; reflexivity. Qed.

(** Rounding depends on the mantissa, exponent and location only through
    the first shift. *)
Lemma bra_ext sx m1 e1 l1 m2 e2 l2 :
  shr_fexp prec emax m1 e1 l1 = shr_fexp prec emax m2 e2 l2 ->
  binary_round_aux prec emax sx m1 e1 l1 = binary_round_aux prec emax sx m2 e2 l2.
Proof. unfold binary_round_aux. intros ->. reflexivity. Qed.

Lemma bounded_cases m e :
  SpecFloat.bounded prec emax m e = true ->
  e <= 971 /\ ((Zpos (digits2_pos m) = 53 /\ -1074 <= e) \/ (Zpos (digits2_pos m) <= 53 /\ e = -1074)).
Proof.
  unfold SpecFloat.bounded, canonical_mantissa, fexp, emin, prec, emax.
  rewrite andb_true_iff, Z.eqb_eq, Z.leb_le. lia.
Qed.

Lemma iter_shr_52 (m : positive) :
  SpecFloat.iter_pos shr_1 52 (Build_shr_record (Zpos (4503599627370496 * m)) false false)
  = Build_shr_record (Zpos m) false false.
Proof. reflexivity. Qed.

Lemma iter_shr_53 (m : positive) :
  SpecFloat.iter_pos shr_1 53 (Build_shr_record (Zpos (4503599627370496 * m)) false false)
  = shr_1 (Build_shr_record (Zpos m) false false).
Proof. reflexivity. Qed.

Lemma digits_mul_52 (m : positive) :
  Zdigits2 (Zpos (4503599627370496 * m)) = Zpos (digits2_pos m) + 52.
Proof. cbn. rewrite !Pos2Z.inj_succ. lia. Qed.

(* the left side: 0.5 * x *)
Lemma shr_fexp_mul_half m e :
  SpecFloat.bounded prec emax m e = true ->
  shr_fexp prec emax (Zpos (4503599627370496 * m)) (-53 + e) loc_Exact =
  if e =? -1074 then (shr_1 (Build_shr_record (Zpos m) false false), -1074)
  else (Build_shr_record (Zpos m) false false, e - 1).
Proof.
  intros Hb. apply bounded_cases in Hb. destruct Hb as [Hmax Hc].
  unfold shr_fexp. rewrite digits_mul_52.
  unfold shr_record_of_loc, fexp, emin, prec, emax.
  destruct (Z.eqb_spec e (-1074)) as [->|Hne].
  - replace (Z.max (Z.pos (digits2_pos m) + 52 + (-53 + -1074) - 53) (3 - 1024 - 53)
             - (-53 + -1074)) with 53 by lia.
    unfold shr. rewrite iter_shr_53. reflexivity.
  - replace (Z.max (Z.pos (digits2_pos m) + 52 + (-53 + e) - 53) (3 - 1024 - 53)
             - (-53 + e)) with 52 by lia.
    unfold shr. rewrite iter_shr_52. f_equal. lia.
Qed.

Lemma div_eucl_2_52 (x s q r : Z) :
  0 <= s ->
  x * 2 ^ s = 4503599627370496 * q + r -> 0 <= r < 4503599627370496 ->
  Z.div_eucl (Z.shiftl x s) 4503599627370496 = (q, r).
Proof.
  intros Hs Hx Hr. rewrite Z.shiftl_mul_pow2 by exact Hs.
  pose proof (Z_div_mod (x * 2 ^ s) 4503599627370496 eq_refl) as Hd.
  destruct (Z.div_eucl (x * 2 ^ s) 4503599627370496) as [q' r'].
  f_equal; lia.
Qed.

Lemma shr_fexp_div_two m e :
  SpecFloat.bounded prec emax m e = true ->
  (let '(mz, ez, lz) :=
     SFdiv_core_binary prec emax (Zpos m) e 4503599627370496 (-51) in
   shr_fexp prec emax mz ez lz) =
  if e =? -1074 then (shr_1 (Build_shr_record (Zpos m) false false), -1074)
  else (Build_shr_record (Zpos m) false false, e - 1).
Proof.
  intros Hb. apply bounded_cases in Hb. destruct Hb as [Hmax Hc].
  cbv beta zeta delta [SFdiv_core_binary].
  change (Zdigits2 (Zpos m)) with (Zpos (digits2_pos m)).
  change (Zdigits2 4503599627370496) with 53.
  unfold fexp, emin, prec, emax.
  destruct (Z.eqb_spec e (-1074)) as [->|Hne].
  - (* the smallest exponent: a bit is shifted out *)
    assert (Hd : Zpos (digits2_pos m) <= 53) by lia. clear Hc.
    replace (Z.min (Z.max (Z.pos (digits2_pos m) + -1074 - (53 + -51) - 53)
                      (3 - 1024 - 53)) (-1074 - -51)) with (-1074) by lia.
    change (-1074 - -51 - -1074) with 51.
    cbv iota.
    destruct m as [p|p|].
    + rewrite (@div_eucl_2_52 (Zpos p~1) 51 (Zpos p) 2251799813685248)
        by (try change (2 ^ 51) with 2251799813685248; lia).
      cbv iota beta.
      change (new_location 4503599627370496 2251799813685248)
        with (loc_Inexact Eq).
      unfold shr_fexp, fexp, emin, prec, emax.
      cbn [digits2_pos] in Hd. rewrite Pos2Z.inj_succ in Hd.
      change (Zdigits2 (Zpos p)) with (Zpos (digits2_pos p)).
      replace (Z.max (Z.pos (digits2_pos p) + -1074 - 53) (3 - 1024 - 53) - -1074)
        with 0 by lia.
      reflexivity.
    + rewrite (@div_eucl_2_52 (Zpos p~0) 51 (Zpos p) 0)
        by (try change (2 ^ 51) with 2251799813685248; lia).
      cbv iota beta.
      change (new_location 4503599627370496 0) with loc_Exact.
      unfold shr_fexp, fexp, emin, prec, emax.
      cbn [digits2_pos] in Hd. rewrite Pos2Z.inj_succ in Hd.
      change (Zdigits2 (Zpos p)) with (Zpos (digits2_pos p)).
      replace (Z.max (Z.pos (digits2_pos p) + -1074 - 53) (3 - 1024 - 53) - -1074)
        with 0 by lia.
      reflexivity.
    + reflexivity.
  - destruct Hc as [[Hd He]|[_ He]]; [|lia].
    destruct (Z.eq_dec e (-1073)) as [->|Hne'].
    + (* the result is the smallest normal binade: no shift is left *)
      rewrite Hd.
      change (Z.min (Z.max (53 + -1073 - (53 + -51) - 53) (3 - 1024 - 53))
                (-1073 - -51)) with (-1074).
      change (-1073 - -51 - -1074) with 52.
      cbv iota.
      rewrite (@div_eucl_2_52 (Zpos m) 52 (Zpos m) 0)
        by (try change (2 ^ 52) with 4503599627370496; lia).
      cbv iota beta.
      change (new_location 4503599627370496 0) with loc_Exact.
      unfold shr_fexp, fexp, emin, prec, emax.
      change (Zdigits2 (Zpos m)) with (Zpos (digits2_pos m)). rewrite Hd.
      reflexivity.
    + rewrite Hd.
      replace (Z.min (Z.max (53 + e - (53 + -51) - 53) (3 - 1024 - 53)) (e - -51))
        with (e - 2) by lia.
      replace (e - -51 - (e - 2)) with 53 by lia.
      cbv iota.
      rewrite (@div_eucl_2_52 (Zpos m) 53 (Zpos m~0) 0)
        by (try change (2 ^ 53) with 9007199254740992; lia).
      cbv iota beta.
      change (new_location 4503599627370496 0) with loc_Exact.
      unfold shr_fexp, fexp, emin, prec, emax.
      change (Zdigits2 (Zpos m~0)) with (Zpos (Pos.succ (digits2_pos m))).
      rewrite Pos2Z.inj_succ, Hd.
      replace (Z.max (Z.succ 53 + (e - 2) - 53) (3 - 1024 - 53) - (e - 2))
        with 1 by lia.
      cbn. f_equal. lia.
Qed.

(** On the specification of binary64: halving by the product and by the
    quotient round to the same double, subnormal numbers, zeros, infinities
    and NaN included. *)
Lemma SF_half_law (x : spec_float) :
  valid_binary x = true ->
  SFmul prec emax SFhalf x = SFdiv prec emax x SFtwo.
Proof.
  destruct x as [s|s| |s m e]; try (intros _; destruct s; reflexivity);
    [intros _; reflexivity|].
  intros Hb. unfold SFmul, SFdiv, SFhalf, SFtwo.
  unfold valid_binary in Hb. cbn [SpecFloat.valid_binary] in Hb.
  pose proof (shr_fexp_div_two m e Hb) as Hdiv.
  destruct (SFdiv_core_binary prec emax (Zpos m) e 4503599627370496 (-51))
    as [[mz ez] lz].
  replace (xorb s false) with (xorb false s) by (destruct s; reflexivity).
  apply bra_ext. rewrite Hdiv. apply shr_fexp_mul_half. exact Hb.
Qed.

End Binary64Half.

(** On Python's floats [0.5 * x] and [x / 2] are the same double. *)
Lemma half_law_float : half_law (F:=float).
Proof.
  intros x. apply Prim2SF_inj.
  change (Prim2SF (PrimFloat.mul 0.5 x) = Prim2SF (PrimFloat.div x 2)).
  rewrite mul_spec, div_spec.
  apply SF_half_law. apply Prim2SF_valid.
Qed.

(** X14: On binary64 [0.5 * x] and [x / 2] are the same double for every [x];
    hence, for every state type, right-hand side of the state alone and
    input, one pass through the loop body of the compact [integrate_RK4]
    and, an object with [rhs] standing for the placeholder, of the first
    [integrate_RK4] and of [integrate_RK2] computes the recurrences written
    with [tau / 2] and [tau / 6]. *)
Theorem RK_bodies_on_binary64 {State} `{StateOps float State}
    (f : State -> State) (T t tau : float) (ts : list float) (h : list State)
    (state : State) (log : list State) :
  let v := {| v_t := t; v_tau := tau; times := ts; history := h ++ [state] |} in
  let tau' := clamp t tau T in
  let rk4 := RK4_step_spec (autonomous f) state t tau' in
  let rk2 := RK2_step_spec (autonomous f) state t tau' in
  (forall x : float, PrimFloat.mul 0.5 x = PrimFloat.div x 2)
  /\ RK4_body (total f) T v log =
       Returns ({| v_t := add t tau'; v_tau := tau';
                   times := ts ++ [add t tau'];
                   history := (h ++ [state]) ++ [snd rk4] |}, log ++ fst rk4)
  /\ RK4_first_body (Obj (total f)) T v log = RK4_body (total f) T v log
  /\ RK2_body (Obj (total f)) T v log =
       Returns ({| v_t := add t tau'; v_tau := tau';
                   times := ts ++ [add t tau'];
                   history := (h ++ [state]) ++ [snd rk2] |}, log ++ fst rk2).
Proof.
  intros v tau' rk4 rk2.
  split; [exact half_law_float|]. split; [|split].
  - rewrite (RK4_body_total f T v h state log eq_refl).
    unfold rk4, RK4_step_spec, autonomous; simpl.
    rewrite <- !half_law_float. rewrite <- !app_assoc. reflexivity.
  - reflexivity.
  - rewrite (RK2_body_total f T v h state log eq_refl).
    unfold rk2, RK2_step_spec, autonomous; simpl.
    rewrite <- !half_law_float. rewrite <- !app_assoc. reflexivity.
Qed.

(** ** The notebook's own right-hand side *)

(** X15: The notebook defines [rhs] with no parameter: with it [integrate_RK4]
    raises [TypeError] in its first pass as soon as [0 < T], for every
    state, [tau] and fuel, and returns the initial entry otherwise. *)
Theorem integrate_RK4_with_notebook_rhs {F} `{Num F} {State} `{StateOps F State}
    (fuel : nat) (state0 : State) (tau T : F) (log : list State) :
  integrate_RK4 notebook_rhs (S fuel) state0 tau T log =
    if ltb lit_0 T then Raises TypeError
    else Returns (([lit_0], [state0]), log).
Proof.
  destruct (ltb lit_0 T) eqn:HT.
  - apply integrate_RK4_evaluates_rhs_first; [exact HT | reflexivity].
  - unfold integrate_RK4, bind. simpl while. cbn [v_t]. rewrite HT. reflexivity.
Qed.

(** ** The whole trajectory, in any arithmetic *)

Section Iteration.

Context {F : Type} `{Num F} {State : Type} `{StateOps F State}.

Lemma loop_iterates (step : State -> F -> F -> State)
    (body : rk_vars (F:=F) (State:=State) -> M State rk_vars) (T : F) :
  follows_step step body T ->
  forall fuel v log v' log' h s,
    history v = h ++ [s] ->
    while fuel (fun v => ltb (v_t v) T) body v log = Returns (v', log') ->
    exists e1 e2,
      times v' = times v ++ e1 /\ history v' = history v ++ e2
      /\ rk_iterates step T (v_t v) (v_tau v) s e1 e2.
Proof.
  intros Hf. induction fuel as [|fuel IH]; intros v log v' log' h s Hh Hw;
    [discriminate Hw|].
  simpl in Hw. destruct (ltb (v_t v) T).
  - destruct (Hf v log h s Hh) as (log1 & Hb).
    unfold bind in Hw. rewrite Hb in Hw.
    eapply IH in Hw; [|reflexivity].
    destruct Hw as (e1 & e2 & Ht & Hhist & Hit).
    cbn [times history v_t v_tau] in Ht, Hhist, Hit.
    eexists (_ :: e1), (_ :: e2).
    rewrite Ht, Hhist, <- !app_assoc.
    split; [reflexivity|]. split; [reflexivity|].
    split; [reflexivity|]. split; [reflexivity|]. exact Hit.
  - injection Hw as <- <-. exists [], []. rewrite !app_nil_r.
    repeat split.
Qed.

Variable f : State -> State.
Hypothesis Hhalf : half_law (F:=F).

Lemma RK4_body_follows (T : F) :
  follows_step (fun y t c => snd (RK4_step_spec (autonomous f) y t c))
    (RK4_body (total f) T) T.
Proof.
  intros v log h s Hh. eexists.
  rewrite (RK4_body_total f T v h s log Hh).
  unfold RK4_step_spec, autonomous; simpl.
  rewrite <- !Hhalf. reflexivity.
Qed.

Lemma RK2_body_follows (T : F) :
  follows_step (fun y t c => snd (RK2_step_spec (autonomous f) y t c))
    (RK2_body (Obj (total f)) T) T.
Proof.
  intros v log h s Hh. eexists.
  rewrite (RK2_body_total f T v h s log Hh).
  unfold RK2_step_spec, autonomous; simpl.
  rewrite <- !Hhalf. reflexivity.
Qed.

(** X16: Whenever [integrate_RK4] returns, with a right-hand side that returns
    everywhere and in an arithmetic where [0.5 * x] is [x / 2]: the
    trajectory is the iteration of the classical recurrence from
    [(0, state0)], each step clamped against [T], and a clamped step
    staying in force for the steps after it. *)
Theorem integrate_RK4_iterates (fuel : nat) (state0 : State) (tau T : F)
    (log : list State) ts hs log' :
  integrate_RK4 (total f) fuel state0 tau T log = Returns ((ts, hs), log') ->
  exists e1 e2,
    ts = lit_0 :: e1 /\ hs = state0 :: e2
    /\ rk_iterates (fun y t c => snd (RK4_step_spec (autonomous f) y t c))
         T lit_0 tau state0 e1 e2.
Proof.
  unfold integrate_RK4, bind. intros Hw.
  destruct (while fuel _ _ _ log) as [[v l]| |] eqn:E; try discriminate Hw.
  injection Hw as <- <- <-.
  eapply (loop_iterates (RK4_body_follows T)) with (h := []) in E;
    [|reflexivity].
  destruct E as (e1 & e2 & Ht & Hh & Hit).
  exists e1, e2. cbn [times history v_t v_tau] in Ht, Hh, Hit.
  rewrite Ht, Hh. repeat split. exact Hit.
Qed.

(** X17: The same for [integrate_RK2], an object with [rhs] standing for the
    placeholder, with the midpoint recurrence. *)
Theorem integrate_RK2_iterates (fuel : nat) (state0 : State) (tau T : F)
    (log : list State) ts hs log' :
  integrate_RK2_with (Obj (total f)) fuel state0 tau T log
    = Returns ((ts, hs), log') ->
  exists e1 e2,
    ts = lit_0 :: e1 /\ hs = state0 :: e2
    /\ rk_iterates (fun y t c => snd (RK2_step_spec (autonomous f) y t c))
         T lit_0 tau state0 e1 e2.
Proof.
  unfold integrate_RK2_with, bind. simpl app. intros Hw.
  destruct (while fuel _ _ _ log) as [[v l]| |] eqn:E; try discriminate Hw.
  injection Hw as <- <- <-.
  eapply (loop_iterates (RK2_body_follows T)) with (h := []) in E;
    [|reflexivity].
  destruct E as (e1 & e2 & Ht & Hh & Hit).
  exists e1, e2. cbn [times history v_t v_tau] in Ht, Hh, Hit.
  rewrite Ht, Hh. repeat split. exact Hit.
Qed.

End Iteration.

(** ** binary64: the order of the positive numbers, the rounding of sums *)

(** Python's [float] is specified by [SpecFloat]: a sum or a difference is
    computed exactly on the mantissas and then rounded to 53 bits, to the
    nearest, ties to even.  What the loops need of it is proved here for
    positive numbers, on their values as integers ([SFvalue]). *)

Section Binary64Order.

Local Open Scope Z_scope.

(** Powers of two, the number of bits of a mantissa, shifts. *)

Lemma fexp_eq z : fexp prec emax z = Z.max (z - 53) (-1074).
Proof. reflexivity. Qed.

Lemma pow2_pos k : 0 <= k -> 0 < 2 ^ k.
Proof. intros; apply Z.pow_pos_nonneg; lia. Qed.

Lemma pow2_add a b : 0 <= a -> 0 <= b -> 2 ^ (a + b) = 2 ^ a * 2 ^ b.
Proof. intros; apply Z.pow_add_r; assumption. Qed.

Lemma pow2_le a b : 0 <= a <= b -> 2 ^ a <= 2 ^ b.
Proof. intros; apply Z.pow_le_mono_r; lia. Qed.

Lemma pow2_lt a b : 0 <= a < b -> 2 ^ a < 2 ^ b.
Proof. intros; apply Z.pow_lt_mono_r; lia. Qed.

(** A mantissa of [d] bits lies between [2^(d-1)] and [2^d]. *)
Lemma digits2_pos_bounds m :
  2 ^ (Zpos (digits2_pos m) - 1) <= Zpos m < 2 ^ Zpos (digits2_pos m).
Proof.
  induction m as [p IH|p IH|]; cbn [digits2_pos].
  - rewrite Pos2Z.inj_succ, Pos2Z.inj_xI.
    replace (Z.succ (Zpos (digits2_pos p)) - 1) with (1 + (Zpos (digits2_pos p) - 1)) by lia.
    replace (Z.succ (Zpos (digits2_pos p))) with (1 + Zpos (digits2_pos p)) by lia.
    rewrite !pow2_add by lia. change (2 ^ 1) with 2. lia.
  - rewrite Pos2Z.inj_succ, Pos2Z.inj_xO.
    replace (Z.succ (Zpos (digits2_pos p)) - 1) with (1 + (Zpos (digits2_pos p) - 1)) by lia.
    replace (Z.succ (Zpos (digits2_pos p))) with (1 + Zpos (digits2_pos p)) by lia.
    rewrite !pow2_add by lia. change (2 ^ 1) with 2. lia.
  - cbn. lia.
Qed.

Lemma digits2_pos_unique m d :
  2 ^ (d - 1) <= Zpos m < 2 ^ d -> Zpos (digits2_pos m) = d.
Proof.
  intros [Hlo Hhi]. pose proof (digits2_pos_bounds m) as [Blo Bhi].
  assert (Hd : 0 < d).
  { destruct (Z_lt_le_dec 0 d) as [|Hle]; [assumption|].
    destruct (Z.eq_dec d 0) as [->|]; [cbn in Hhi; lia|].
    rewrite Z.pow_neg_r in Hhi by lia. lia. }
  destruct (Z.lt_trichotomy (Zpos (digits2_pos m)) d) as [Hc|[Hc|Hc]]; [|assumption|].
  - assert (2 ^ Zpos (digits2_pos m) <= 2 ^ (d - 1)) by (apply pow2_le; lia). lia.
  - assert (2 ^ d <= 2 ^ (Zpos (digits2_pos m) - 1)) by (apply pow2_le; lia). lia.
Qed.

(** Shifting a mantissa to the left multiplies it by a power of two. *)
Lemma iter_xO m d : Zpos (Pos.iter xO m d) = Zpos m * 2 ^ Zpos d.
Proof.
  induction d as [|d IH] using Pos.peano_ind.
  - cbn. lia.
  - rewrite Pos.iter_succ, Pos2Z.inj_xO, IH, Pos2Z.inj_succ.
    replace (Z.succ (Zpos d)) with (1 + Zpos d) by lia.
    rewrite pow2_add by lia. change (2 ^ 1) with 2. lia.
Qed.

Lemma digits2_pos_shift m d :
  Zpos (digits2_pos (Pos.iter xO m d)) = Zpos (digits2_pos m) + Zpos d.
Proof.
  apply digits2_pos_unique. rewrite iter_xO.
  pose proof (digits2_pos_bounds m) as [Blo Bhi].
  replace (Zpos (digits2_pos m) + Zpos d - 1) with ((Zpos (digits2_pos m) - 1) + Zpos d) by lia.
  rewrite !pow2_add by lia.
  assert (0 < 2 ^ Zpos d) by (apply pow2_pos; lia). nia.
Qed.

Lemma iter_pos_nat {A} (f : A -> A) p x :
  SpecFloat.iter_pos f p x = Nat.iter (Pos.to_nat p) f x.
Proof.
  revert x. induction p as [p IH|p IH|]; intro x; cbn [SpecFloat.iter_pos].
  - rewrite !IH, Pos2Nat.inj_xI.
    replace (S (2 * Pos.to_nat p))%nat with (Pos.to_nat p + (Pos.to_nat p + 1))%nat by lia.
    rewrite !Nat.iter_add. reflexivity.
  - rewrite !IH, Pos2Nat.inj_xO.
    replace (2 * Pos.to_nat p)%nat with (Pos.to_nat p + Pos.to_nat p)%nat by lia.
    rewrite Nat.iter_add. reflexivity.
  - reflexivity.
Qed.

(** One shift to the right halves the mantissa and remembers what is lost. *)
Lemma shr_1_spec mrs :
  0 <= shr_m mrs ->
  shr_m (shr_1 mrs) = shr_m mrs / 2
  /\ shr_r (shr_1 mrs) = Z.odd (shr_m mrs)
  /\ shr_s (shr_1 mrs) = shr_r mrs || shr_s mrs.
Proof.
  destruct mrs as [[|[p|p|]|p] r s]; cbn [shr_m shr_r shr_s shr_1]; intros Hm;
    try lia; (split; [|split; reflexivity]).
  - reflexivity.
  - rewrite Pos2Z.inj_xI. apply Z.div_unique with (r := 1); lia.
  - rewrite Pos2Z.inj_xO. apply Z.div_unique with (r := 0); lia.
  - reflexivity.
Qed.

(** [n] shifts divide the mantissa by [2^n]; when the division is exact no
    lost bit is recorded. *)
Lemma shr_iter M n :
  0 <= M ->
  shr_m (Nat.iter n shr_1 (Build_shr_record M false false)) = M / 2 ^ Z.of_nat n
  /\ (M mod 2 ^ Z.of_nat n = 0 ->
      shr_r (Nat.iter n shr_1 (Build_shr_record M false false)) = false
      /\ shr_s (Nat.iter n shr_1 (Build_shr_record M false false)) = false).
Proof.
  intros HM. induction n as [|n [IHm IHe]].
  - cbn. rewrite Z.div_1_r. auto.
  - rewrite !Nat.iter_succ.
    set (mrs := Nat.iter n shr_1 (Build_shr_record M false false)) in *.
    assert (Hp : 0 < 2 ^ Z.of_nat n) by (apply pow2_pos; lia).
    assert (Hpow : 2 ^ Z.of_nat (S n) = 2 ^ Z.of_nat n * 2).
    { rewrite Nat2Z.inj_succ, Z.pow_succ_r by lia. lia. }
    assert (Hnn : 0 <= shr_m mrs).
    { rewrite IHm. apply Z.div_pos; lia. }
    destruct (shr_1_spec mrs Hnn) as [Em [Er Es]].
    rewrite Em, Er, Es, IHm, Hpow. split.
    + rewrite Z.div_div by lia. reflexivity.
    + intros Hz. apply Z.mod_divide in Hz; [|lia]. destruct Hz as [q Hq].
      assert (Hz' : M mod 2 ^ Z.of_nat n = 0).
      { rewrite Hq. replace (q * (2 ^ Z.of_nat n * 2)) with ((q * 2) * 2 ^ Z.of_nat n) by lia.
        apply Z.mod_mul. lia. }
      destruct (IHe Hz') as [-> ->]. split; [|reflexivity].
      rewrite Hq. replace (q * (2 ^ Z.of_nat n * 2)) with ((q * 2) * 2 ^ Z.of_nat n) by lia.
      rewrite Z.div_mul by lia. rewrite Z.odd_mul. cbn. apply andb_false_r.
Qed.

(** Rounding to nearest, ties to even, keeps the mantissa or adds one to it,
    and keeps it when nothing was lost. *)
Lemma rne_cases mrs :
  let m2 := round_nearest_even (shr_m mrs) (loc_of_shr_record mrs) in
  (m2 = shr_m mrs \/ m2 = shr_m mrs + 1)
  /\ (shr_r mrs = false -> shr_s mrs = false -> m2 = shr_m mrs).
Proof.
  destruct mrs as [m [|] [|]]; cbn; try destruct (Z.even m); split; auto;
    intros; discriminate.
Qed.

(** A number already in canonical form is left as it is. *)
Lemma binary_round_aux_canonical m e :
  fexp prec emax (Zpos (digits2_pos m) + e) = e -> e <= 971 ->
  binary_round_aux prec emax false (Zpos m) e loc_Exact = S754_finite false m e.
Proof.
  intros Hc He. unfold binary_round_aux, shr_fexp.
  cbn [Zdigits2 shr_record_of_loc]. rewrite Hc, Z.sub_diag.
  cbn [shr shr_m loc_of_shr_record round_nearest_even Zdigits2 shr_record_of_loc].
  rewrite Hc, Z.sub_diag. cbn [shr shr_m].
  change (emax - prec) with 971.
  destruct (Z.leb_spec e 971); [reflexivity|lia].
Qed.

Lemma pow_2098 : 2 ^ 2098 = 2 ^ 53 * 2 ^ 2045.
Proof. rewrite <- Z.pow_add_r by lia. reflexivity. Qed.

Lemma pow_53 : 2 ^ 53 = 9007199254740992.
Proof. reflexivity. Qed.

Lemma pow_52 : 2 ^ 52 = 4503599627370496.
Proof. reflexivity. Qed.

(** The second shift of [binary_round_aux], on a mantissa of 53 bits or on
    [2^53], where rounding up has carried. *)
Lemma round_finish q e1 :
  -1074 <= e1 -> 2 ^ 52 <= Zpos q <= 2 ^ 53 ->
  let r := (let '(mrs, e2) := shr_fexp prec emax (Zpos q) e1 loc_Exact in
            match shr_m mrs with
            | Z0 => S754_zero false
            | Zpos m => if e2 <=? emax - prec then S754_finite false m e2
                        else S754_infinity false
            | Zneg _ => S754_nan
            end) in
  SFpositive r /\ SFvalue r = Z.min (Zpos q * 2 ^ (e1 + 1074)) (2 ^ 2098).
Proof.
  intros He [Hlo Hhi]. change (emax - prec) with 971.
  assert (HV : 0 < 2 ^ (e1 + 1074)) by (apply pow2_pos; lia).
  destruct (Z.eq_dec (Zpos q) (2 ^ 53)) as [Hq|Hq].
  - rewrite pow_53 in Hq. injection Hq as ->.
    unfold shr_fexp. cbn [Zdigits2 shr_record_of_loc].
    replace (fexp prec emax (Zpos (digits2_pos 9007199254740992) + e1) - e1) with 1
      by (rewrite fexp_eq; change (Zpos (digits2_pos 9007199254740992)) with 54; lia).
    cbn [shr SpecFloat.iter_pos shr_1 shr_m orb].
    destruct (Z.leb_spec (e1 + 1) 971) as [Hle|Hgt]; cbn [SFpositive SFvalue].
    + split.
      * unfold SpecFloat.bounded, canonical_mantissa. rewrite fexp_eq.
        change (Zpos (digits2_pos 4503599627370496)) with 53.
        change (emax - prec) with 971.
        apply andb_true_intro; split; [apply Z.eqb_eq|apply Z.leb_le]; lia.
      * replace (e1 + 1 + 1074) with (1 + (e1 + 1074)) by lia.
        rewrite pow2_add by lia. change (2 ^ 1) with 2.
        assert (2 ^ (e1 + 1074) <= 2 ^ 2044) by (apply pow2_le; lia).
        rewrite pow_2098, pow_53.
        replace (2 ^ 2045) with (2 * 2 ^ 2044)
          by (change 2045 with (1 + 2044); rewrite pow2_add by lia; reflexivity).
        generalize dependent (2 ^ 2044). generalize dependent (2 ^ (e1 + 1074)).
        intros; lia.
    + split; [exact I|].
      assert (2 ^ 2045 <= 2 ^ (e1 + 1074)) by (apply pow2_le; lia).
      rewrite pow_2098, pow_53.
      generalize dependent (2 ^ 2045). generalize dependent (2 ^ (e1 + 1074)).
      intros; lia.
  - assert (Hd : Zpos (digits2_pos q) = 53) by (apply digits2_pos_unique; change (53 - 1) with 52; lia).
    unfold shr_fexp. cbn [Zdigits2 shr_record_of_loc].
    replace (fexp prec emax (Zpos (digits2_pos q) + e1) - e1) with 0
      by (rewrite fexp_eq, Hd; lia).
    cbn [shr shr_m].
    destruct (Z.leb_spec e1 971) as [Hle|Hgt]; cbn [SFpositive SFvalue].
    + split.
      * unfold SpecFloat.bounded, canonical_mantissa. rewrite fexp_eq, Hd.
        change (emax - prec) with 971.
        apply andb_true_intro; split; [apply Z.eqb_eq|apply Z.leb_le]; lia.
      * assert (2 ^ (e1 + 1074) <= 2 ^ 2045) by (apply pow2_le; lia).
        rewrite pow_2098. rewrite pow_53 in *.
        generalize dependent (2 ^ 2045). generalize dependent (2 ^ (e1 + 1074)).
        intros; nia.
    + split; [exact I|].
      assert (2 * 2 ^ 2045 <= 2 ^ (e1 + 1074)).
      { replace (2 * 2 ^ 2045) with (2 ^ 2046)
          by (change 2046 with (1 + 2045); rewrite pow2_add by lia; reflexivity).
        apply pow2_le; lia. }
      rewrite pow_2098. rewrite pow_53, pow_52 in *.
      generalize dependent (2 ^ 2045). generalize dependent (2 ^ (e1 + 1074)).
      intros; nia.
Qed.

(** What [bounded] says: the exponent is at least [-1074], the mantissa has
    53 bits at most, and 53 exactly above the least exponent. *)
Lemma bounded_mantissa m e :
  SpecFloat.bounded prec emax m e = true ->
  -1074 <= e <= 971 /\ Zpos m < 2 ^ 53 /\ (e = -1074 \/ 2 ^ 52 <= Zpos m).
Proof.
  intros Hb. apply bounded_cases in Hb. destruct Hb as [He Hc].
  pose proof (digits2_pos_bounds m) as [Blo Bhi].
  destruct Hc as [[Hd He']|[Hd He']].
  - rewrite Hd in *. change (53 - 1) with 52 in Blo. lia.
  - assert (2 ^ Zpos (digits2_pos m) <= 2 ^ 53) by (apply pow2_le; lia). lia.
Qed.

(** The finite numbers are positive and below [2^1024], in units of
    [2^-1074]. *)
Lemma bounded_value m e :
  SpecFloat.bounded prec emax m e = true ->
  0 < Zpos m * 2 ^ (e + 1074) < 2 ^ 2098.
Proof.
  intros Hb. apply bounded_mantissa in Hb. destruct Hb as [He [Hm _]].
  assert (0 < 2 ^ (e + 1074)) by (apply pow2_pos; lia).
  assert (2 ^ (e + 1074) <= 2 ^ 2045) by (apply pow2_le; lia).
  rewrite pow_2098. rewrite pow_53 in *.
  generalize dependent (2 ^ 2045). generalize dependent (2 ^ (e + 1074)).
  intros; nia.
Qed.

(** Canonical numbers are ordered by their exponents first. *)
Lemma exponent_lt m1 e1 m2 e2 :
  SpecFloat.bounded prec emax m1 e1 = true ->
  SpecFloat.bounded prec emax m2 e2 = true ->
  e1 < e2 ->
  Zpos m1 * 2 ^ (e1 + 1074) < Zpos m2 * 2 ^ (e2 + 1074).
Proof.
  intros H1 H2 Hlt.
  apply bounded_mantissa in H1. destruct H1 as [He1 [Hm1 _]].
  apply bounded_mantissa in H2. destruct H2 as [He2 [_ Hm2]].
  destruct Hm2 as [->|Hm2]; [lia|].
  assert (HW : 0 < 2 ^ (e1 + 1074)) by (apply pow2_pos; lia).
  assert (HK : 2 <= 2 ^ (e2 - e1)).
  { change 2 with (2 ^ 1) at 1. apply pow2_le; lia. }
  replace (e2 + 1074) with ((e2 - e1) + (e1 + 1074)) by lia.
  rewrite (pow2_add (a:=e2 - e1)) by lia. rewrite pow_53, pow_52 in *.
  generalize dependent (2 ^ (e2 - e1)). generalize dependent (2 ^ (e1 + 1074)).
  intros W HW K HK.
  assert (9007199254740992 <= Zpos m2 * K) by nia.
  assert (Zpos m1 * W < (Zpos m2 * K) * W) by (apply Z.mul_lt_mono_pos_r; lia).
  lia.
Qed.

(** Positive numbers compare as their values do. *)
Lemma SFcompare_positive x y :
  SFpositive x -> SFpositive y ->
  SFcompare x y = Some (SFvalue x ?= SFvalue y).
Proof.
  destruct x as [| [|] | |[|] m1 e1]; try contradiction;
    destruct y as [| [|] | |[|] m2 e2]; try contradiction;
    cbn [SFpositive SFvalue SFcompare]; intros H1 H2.
  - rewrite Z.compare_refl. reflexivity.
  - pose proof (bounded_value _ _ H2). f_equal. symmetry. apply Z.compare_gt_iff. lia.
  - pose proof (bounded_value _ _ H1). f_equal. symmetry. apply Z.compare_lt_iff. lia.
  - f_equal. destruct (Z.compare_spec e1 e2) as [->|Hlt|Hgt].
    + assert (0 < 2 ^ (e2 + 1074)).
      { apply bounded_mantissa in H2. apply pow2_pos. lia. }
      rewrite <- Zmult_compare_compat_r by lia.
      reflexivity.
    + symmetry. apply Z.compare_lt_iff. apply exponent_lt; assumption.
    + symmetry. apply Z.compare_gt_iff. apply exponent_lt; assumption.
Qed.

(** Positive numbers of equal value are the same number. *)
Lemma SFvalue_inj x y :
  SFpositive x -> SFpositive y -> SFvalue x = SFvalue y -> x = y.
Proof.
  intros Hx Hy Hv. pose proof (SFcompare_positive x y Hx Hy) as Hc.
  rewrite Hv, Z.compare_refl in Hc.
  destruct x as [| [|] | |[|] m1 e1]; try contradiction;
    destruct y as [| [|] | |[|] m2 e2]; try contradiction;
    cbn [SFcompare] in Hc; try discriminate; try reflexivity.
  destruct (Z.compare_spec e1 e2) as [->|Hlt|Hgt]; try discriminate.
  injection Hc as Hc. change (Pos.compare m1 m2 = Eq) in Hc.
  apply Pos.compare_eq in Hc. subst. reflexivity.
Qed.

(** The mantissa rounded to 53 bits against any binary64 number: none lies
    strictly between the exact value and the rounded one. *)
Lemma round_sandwich M n e m2 m' e' :
  0 <= M -> -1074 <= e -> 0 < n ->
  2 ^ 52 <= M / 2 ^ n < 2 ^ 53 ->
  m2 = M / 2 ^ n \/ m2 = M / 2 ^ n + 1 ->
  (M mod 2 ^ n = 0 -> m2 = M / 2 ^ n) ->
  -1074 <= e' -> Zpos m' < 2 ^ 53 -> (e' = -1074 \/ 2 ^ 52 <= Zpos m') ->
  (Zpos m' * 2 ^ (e' + 1074) <= M * 2 ^ (e + 1074) ->
   Zpos m' * 2 ^ (e' + 1074) <= m2 * 2 ^ (e + n + 1074))
  /\ (M * 2 ^ (e + 1074) <= Zpos m' * 2 ^ (e' + 1074) ->
      m2 * 2 ^ (e + n + 1074) <= Zpos m' * 2 ^ (e' + 1074)).
Proof.
  intros HM He Hn Hm1 Hm2 Hex He' Hm' Hnorm.
  assert (HN : 0 < 2 ^ n) by (apply pow2_pos; lia).
  pose proof (Z.div_mod M (2 ^ n) ltac:(lia)) as Hdm.
  pose proof (Z.mod_pos_bound M (2 ^ n) HN) as Hrho.
  assert (HU : 0 < 2 ^ (e + 1074)) by (apply pow2_pos; lia).
  replace (e + n + 1074) with (n + (e + 1074)) by lia.
  rewrite (pow2_add (a:=n)) by lia.
  rewrite pow_53, pow_52 in *.
  set (m1 := M / 2 ^ n) in *. set (rho := M mod 2 ^ n) in *.
  set (N := 2 ^ n) in *. set (U := 2 ^ (e + 1074)) in *.
  destruct (Z.lt_trichotomy e' (e + n)) as [Hlt|[Heq|Hgt]].
  - (* a lower binade *)
    assert (HK : 2 <= 2 ^ (e + n - e')).
    { change 2 with (2 ^ 1) at 1. apply pow2_le; lia. }
    assert (HW : 0 < 2 ^ (e' + 1074)) by (apply pow2_pos; lia).
    assert (HV : N * U = 2 ^ (e + n - e') * 2 ^ (e' + 1074)).
    { unfold N, U. rewrite <- !pow2_add by lia. f_equal. lia. }
    set (K := 2 ^ (e + n - e')) in *. set (W := 2 ^ (e' + 1074)) in *.
    clearbody m1 rho N U K W.
    assert (HP : 0 < N * U) by nia.
    assert (HM1 : M * U = m1 * (N * U) + rho * U) by (rewrite Hdm; ring).
    assert (HM2 : 0 <= rho * U < N * U) by nia.
    assert (Zpos m' * W < 4503599627370496 * (K * W)) by nia.
    rewrite <- HV in *.
    set (P := N * U) in *. clearbody P.
    split; intros; nia.
  - (* the same binade *)
    replace (e' + 1074) with (n + (e + 1074)) by lia.
    rewrite (pow2_add (a:=n)) by lia. fold N U.
    clearbody m1 rho N U.
    assert (HP : 0 < N * U) by nia.
    assert (HM1 : M * U = m1 * (N * U) + rho * U) by (rewrite Hdm; ring).
    assert (HM2 : 0 <= rho * U < N * U) by nia.
    set (P := N * U) in *. clearbody P.
    split; intros Hle.
    + assert (Zpos m' < m1 + 1) by nia. nia.
    + destruct (Z.eq_dec rho 0) as [Hr|Hr].
      * rewrite (Hex Hr). subst rho. nia.
      * assert (0 < rho * U) by nia.
        assert (m1 < Zpos m') by nia. nia.
  - (* a higher binade *)
    destruct Hnorm as [->|Hnorm]; [lia|].
    assert (HK : 2 <= 2 ^ (e' - (e + n))).
    { change 2 with (2 ^ 1) at 1. apply pow2_le; lia. }
    replace (e' + 1074) with ((e' - (e + n)) + (n + (e + 1074))) by lia.
    rewrite (pow2_add (a:=e' - (e + n))) by lia.
    rewrite (pow2_add (a:=n)) by lia. fold N U.
    set (K := 2 ^ (e' - (e + n))) in *.
    clearbody m1 rho N U K.
    assert (HP : 0 < N * U) by nia.
    assert (HM1 : M * U = m1 * (N * U) + rho * U) by (rewrite Hdm; ring).
    assert (HM2 : 0 <= rho * U < N * U) by nia.
    set (P := N * U) in *. clearbody P.
    assert (9007199254740992 <= Zpos m' * K) by nia.
    assert (9007199254740992 * P <= Zpos m' * K * P) by nia.
    replace (Zpos m' * (K * P)) with (Zpos m' * K * P) by ring.
    split; intros; nia.
Qed.

(** Rounding a mantissa of more than 53 bits. *)
Lemma binary_round_aux_large M e :
  -1074 <= e -> 53 < Zpos (digits2_pos M) ->
  let n := Zpos (digits2_pos M) - 53 in
  let r := binary_round_aux prec emax false (Zpos M) e loc_Exact in
  exists m2,
    2 ^ 52 <= Zpos M / 2 ^ n < 2 ^ 53
    /\ (m2 = Zpos M / 2 ^ n \/ m2 = Zpos M / 2 ^ n + 1)
    /\ (Zpos M mod 2 ^ n = 0 -> m2 = Zpos M / 2 ^ n)
    /\ SFpositive r
    /\ SFvalue r = Z.min (m2 * 2 ^ (e + n + 1074)) (2 ^ 2098).
Proof.
  intros He HD n r.
  destruct n as [|p|p] eqn:En; try lia.
  assert (H1 : shr_fexp prec emax (Zpos M) e loc_Exact
               = (Nat.iter (Pos.to_nat p) shr_1 (Build_shr_record (Zpos M) false false),
                  e + Zpos p)).
  { unfold shr_fexp. cbn [Zdigits2 shr_record_of_loc]. rewrite fexp_eq.
    replace (Z.max (Zpos (digits2_pos M) + e - 53) (-1074) - e) with (Zpos p) by lia.
    cbn [shr]. rewrite iter_pos_nat. reflexivity. }
  pose proof (@shr_iter (Zpos M) (Pos.to_nat p) ltac:(lia)) as [Hm Hex].
  rewrite positive_nat_Z in Hm, Hex.
  set (mrs := Nat.iter (Pos.to_nat p) shr_1 (Build_shr_record (Zpos M) false false)) in *.
  pose proof (rne_cases mrs) as [Hc Hx]. cbv zeta in Hc, Hx.
  set (m2 := round_nearest_even (shr_m mrs) (loc_of_shr_record mrs)) in *.
  assert (HN : 0 < 2 ^ Zpos p) by (apply pow2_pos; lia).
  assert (Hb : 2 ^ 52 <= Zpos M / 2 ^ Zpos p < 2 ^ 53).
  { pose proof (digits2_pos_bounds M) as [Blo Bhi].
    replace (Zpos (digits2_pos M)) with (53 + Zpos p) in Bhi by lia.
    replace (Zpos (digits2_pos M) - 1) with (52 + Zpos p) in Blo by lia.
    rewrite pow2_add in Blo, Bhi by lia. split.
    - apply Z.div_le_lower_bound; lia.
    - apply Z.div_lt_upper_bound; lia. }
  exists m2. rewrite Hm in Hc, Hx.
  split; [exact Hb|]. split; [exact Hc|]. split.
  { intros Hz. apply Hx; apply Hex; exact Hz. }
  assert (Hq : 2 ^ 52 <= m2 <= 2 ^ 53) by lia.
  subst r. unfold binary_round_aux. rewrite H1. cbv beta iota. fold m2.
  destruct m2 as [|q|q] eqn:Eq; try (rewrite pow_52 in Hq; lia).
  exact (@round_finish q (e + Zpos p) ltac:(lia) Hq).
Qed.

(** Rounding a positive multiple [M * 2^ez] of [2^-1074]: the result is a
    positive number or the infinity, it is the number itself when that has
    53 bits or fewer, and no binary64 number lies strictly between the
    exact value and the result. *)
Lemma binary_round_spec M ez :
  -1074 <= ez <= 971 ->
  let r := binary_round prec emax false M ez in
  let s := Zpos M * 2 ^ (ez + 1074) in
  exists v,
    SFpositive r /\ SFvalue r = Z.min v (2 ^ 2098)
    /\ (Zpos M < 2 ^ 53 -> SFvalue r = s)
    /\ forall m' e',
         -1074 <= e' -> Zpos m' < 2 ^ 53 -> (e' = -1074 \/ 2 ^ 52 <= Zpos m') ->
         (Zpos m' * 2 ^ (e' + 1074) <= s -> Zpos m' * 2 ^ (e' + 1074) <= v)
         /\ (s <= Zpos m' * 2 ^ (e' + 1074) -> v <= Zpos m' * 2 ^ (e' + 1074)).
Proof.
  intros He r s.
  pose proof (digits2_pos_bounds M) as [Blo Bhi].
  destruct (Z_le_gt_dec (Zpos (digits2_pos M)) 53) as [Hd|Hd].
  - (* 53 bits or fewer: the value is kept *)
    assert (Hr : exists m e, r = S754_finite false m e
                 /\ SpecFloat.bounded prec emax m e = true
                 /\ Zpos m * 2 ^ (e + 1074) = s).
    { subst r. unfold binary_round, shl_align.
      set (e1 := fexp prec emax (Zpos (digits2_pos M) + ez)).
      assert (He1 : e1 = Z.max (Zpos (digits2_pos M) + ez - 53) (-1074)) by reflexivity.
      destruct (e1 - ez) as [|d|d] eqn:Ed; try lia.
      - exists M, ez. assert (Hc : fexp prec emax (Zpos (digits2_pos M) + ez) = ez) by (fold e1; lia).
        rewrite binary_round_aux_canonical by (assumption || lia).
        split; [reflexivity|]. split; [|reflexivity].
        unfold SpecFloat.bounded, canonical_mantissa. rewrite Hc.
        change (emax - prec) with 971.
        apply andb_true_intro; split; [apply Z.eqb_eq|apply Z.leb_le]; lia.
      - exists (Pos.iter xO M d), e1.
        assert (Hc : fexp prec emax (Zpos (digits2_pos (Pos.iter xO M d)) + e1) = e1).
        { rewrite digits2_pos_shift.
          replace (Zpos (digits2_pos M) + Zpos d + e1) with (Zpos (digits2_pos M) + ez) by lia.
          reflexivity. }
        rewrite binary_round_aux_canonical by (assumption || lia).
        split; [reflexivity|]. split.
        + unfold SpecFloat.bounded, canonical_mantissa. rewrite Hc.
          change (emax - prec) with 971.
          apply andb_true_intro; split; [apply Z.eqb_eq|apply Z.leb_le]; lia.
        + unfold s. rewrite iter_xO.
          replace (ez + 1074) with (Zpos d + (e1 + 1074)) by lia.
          rewrite (pow2_add (a:=Zpos d)) by lia. ring. }
    destruct Hr as [m [e [Er [Hb Hv]]]].
    pose proof (bounded_value _ _ Hb) as Hrange.
    exists s. rewrite Er. cbn [SFpositive SFvalue]. rewrite Hv.
    split; [exact Hb|]. split; [lia|]. split; [reflexivity|].
    intros m' e' _ _ _. split; intros; assumption.
  - (* more than 53 bits: the value is rounded *)
    assert (Hr : r = binary_round_aux prec emax false (Zpos M) ez loc_Exact).
    { subst r. unfold binary_round, shl_align.
      set (e1 := fexp prec emax (Zpos (digits2_pos M) + ez)).
      assert (He1 : e1 = Z.max (Zpos (digits2_pos M) + ez - 53) (-1074)) by reflexivity.
      destruct (e1 - ez) as [|d|d] eqn:Ed; try lia; reflexivity. }
    destruct (@binary_round_aux_large M ez ltac:(lia) ltac:(lia))
      as [m2 [Hm1 [Hm2 [Hex [Hpos Hval]]]]].
    exists (m2 * 2 ^ (ez + (Zpos (digits2_pos M) - 53) + 1074)).
    rewrite Hr. split; [exact Hpos|]. split; [exact Hval|]. split.
    { intros Hlt. assert (2 ^ 53 <= 2 ^ (Zpos (digits2_pos M) - 1)) by (apply pow2_le; lia). lia. }
    intros m' e' He' Hm' Hn'.
    apply (round_sandwich (M:=Zpos M) (n:=Zpos (digits2_pos M) - 53) (e:=ez));
      try assumption; lia.
Qed.

(** A positive number, the infinity included, as a mantissa of 53 bits at
    most and an exponent. *)
Lemma SFpositive_canonical z :
  SFpositive z ->
  exists m' e', SFvalue z = Zpos m' * 2 ^ (e' + 1074)
    /\ -1074 <= e' /\ Zpos m' < 2 ^ 53 /\ (e' = -1074 \/ 2 ^ 52 <= Zpos m').
Proof.
  destruct z as [| [|] | |[|] m e]; try contradiction; cbn [SFpositive SFvalue].
  - intros _. exists 4503599627370496%positive, 972.
    split; [reflexivity|]. rewrite pow_52, pow_53. lia.
  - intros Hb. exists m, e. split; [reflexivity|].
    apply bounded_mantissa in Hb. lia.
Qed.

Lemma SFpositive_range z : SFpositive z -> 0 < SFvalue z <= 2 ^ 2098.
Proof.
  destruct z as [| [|] | |[|] m e]; try contradiction; cbn [SFpositive SFvalue].
  - intros _. split; [apply pow2_pos|]; lia.
  - intros Hb. apply bounded_value in Hb. lia.
Qed.

Lemma shl_align_value mx ex ez :
  ez <= ex ->
  Zpos (fst (shl_align mx ex ez)) = Zpos mx * 2 ^ (ex - ez).
Proof.
  intros Hle. unfold shl_align.
  destruct (ez - ex) as [|d|d] eqn:Ed; try lia; cbn [fst].
  - replace (ex - ez) with 0 by lia. cbn. lia.
  - rewrite iter_xO. f_equal. f_equal. lia.
Qed.

(** The sum of two positive finite numbers, with the value it rounds. *)
Lemma SFadd_finite_round mx ex my ey :
  SpecFloat.bounded prec emax mx ex = true ->
  SpecFloat.bounded prec emax my ey = true ->
  let r := SFadd prec emax (S754_finite false mx ex) (S754_finite false my ey) in
  let s := Zpos mx * 2 ^ (ex + 1074) + Zpos my * 2 ^ (ey + 1074) in
  exists v,
    SFpositive r /\ SFvalue r = Z.min v (2 ^ 2098)
    /\ forall m' e',
         -1074 <= e' -> Zpos m' < 2 ^ 53 -> (e' = -1074 \/ 2 ^ 52 <= Zpos m') ->
         (Zpos m' * 2 ^ (e' + 1074) <= s -> Zpos m' * 2 ^ (e' + 1074) <= v)
         /\ (s <= Zpos m' * 2 ^ (e' + 1074) -> v <= Zpos m' * 2 ^ (e' + 1074)).
Proof.
  intros Hx Hy r s. subst r.
  unfold SFadd, cond_Zopp.
  pose proof (bounded_mantissa _ _ Hx) as [Hex _].
  pose proof (bounded_mantissa _ _ Hy) as [Hey _].
  set (ez := Z.min ex ey).
  pose proof (@shl_align_value mx ex ez ltac:(lia)) as Ax.
  pose proof (@shl_align_value my ey ez ltac:(lia)) as Ay.
  change (Zpos (fst (shl_align mx ex ez)) + Zpos (fst (shl_align my ey ez)))
    with (Zpos (fst (shl_align mx ex ez) + fst (shl_align my ey ez))).
  cbn [binary_normalize].
  set (M := (fst (shl_align mx ex ez) + fst (shl_align my ey ez))%positive).
  assert (Hs : Zpos M * 2 ^ (ez + 1074) = s).
  { unfold M, s. rewrite Pos2Z.inj_add, Ax, Ay.
    replace (ex + 1074) with ((ex - ez) + (ez + 1074)) by lia.
    replace (ey + 1074) with ((ey - ez) + (ez + 1074)) by lia.
    rewrite (pow2_add (a:=ex - ez)), (pow2_add (a:=ey - ez)) by lia. ring. }
  destruct (@binary_round_spec M ez ltac:(lia)) as [v [Hpos [Hval [_ Hsand]]]].
  rewrite Hs in Hsand.
  exists v. split; [exact Hpos|]. split; [exact Hval|exact Hsand].
Qed.

(** The sum of two positive numbers: positive, and as near to the exact sum
    as a binary64 number can be, so that no number lies strictly between. *)
Lemma SFadd_positive x y :
  SFpositive x -> SFpositive y ->
  SFpositive (SFadd prec emax x y)
  /\ forall z, SFpositive z ->
       (SFvalue z <= SFvalue x + SFvalue y -> SFvalue z <= SFvalue (SFadd prec emax x y))
       /\ (SFvalue x + SFvalue y <= SFvalue z -> SFvalue (SFadd prec emax x y) <= SFvalue z).
Proof.
  intros Hx Hy.
  pose proof (SFpositive_range _ Hx) as Rx. pose proof (SFpositive_range _ Hy) as Ry.
  destruct x as [| [|] | |[|] mx ex]; try contradiction;
    destruct y as [| [|] | |[|] my ey]; try contradiction;
    try (cbn [SFadd SFpositive SFvalue] in *; split; [assumption || exact I|];
         intros z Hz; pose proof (SFpositive_range _ Hz); split; intros; lia).
  cbn [SFpositive SFvalue] in *.
  destruct (SFadd_finite_round mx ex my ey Hx Hy) as [v [Hpos [Hval Hsand]]].
  split; [exact Hpos|]. intros z Hz.
  pose proof (SFpositive_range _ Hz) as Rz.
  destruct (SFpositive_canonical _ Hz) as [m' [e' [Ez [He' [Hm' Hn']]]]].
  destruct (Hsand m' e' He' Hm' Hn') as [Hdn Hup].
  rewrite Hval, Ez. split; intros Hle; [specialize (Hdn Hle)|specialize (Hup Hle)]; lia.
Qed.

(** Sterbenz: the difference of two positive numbers within a factor of two
    of each other is computed exactly. *)
Lemma SFsub_exact x y :
  SFpositive x -> SFpositive y ->
  SFvalue y < SFvalue x -> SFvalue x < 2 ^ 2098 -> SFvalue x <= 2 * SFvalue y ->
  SFpositive (SFsub prec emax x y)
  /\ SFvalue (SFsub prec emax x y) = SFvalue x - SFvalue y.
Proof.
  intros Hx Hy Hlt Hfin Hle.
  destruct x as [| [|] | |[|] mx ex]; try contradiction;
    destruct y as [| [|] | |[|] my ey]; try contradiction;
    cbn [SFpositive SFvalue] in *; try lia.
  pose proof (bounded_mantissa _ _ Hx) as [Hex _].
  pose proof (bounded_mantissa _ _ Hy) as [Hey [Hmy _]].
  assert (Hee : ey <= ex).
  { destruct (Z_le_gt_dec ey ex) as [|Hgt]; [assumption|].
    pose proof (@exponent_lt mx ex my ey Hx Hy ltac:(lia)). lia. }
  unfold SFsub, cond_Zopp.
  replace (Z.min ex ey) with ey by lia.
  pose proof (@shl_align_value mx ex ey ltac:(lia)) as Ax.
  pose proof (@shl_align_value my ey ey ltac:(lia)) as Ay.
  rewrite Z.sub_diag in Ay. change (2 ^ 0) with 1 in Ay. rewrite Z.mul_1_r in Ay.
  assert (HU : 0 < 2 ^ (ey + 1074)) by (apply pow2_pos; lia).
  assert (Hvx : Zpos mx * 2 ^ (ex + 1074)
                = Zpos (fst (shl_align mx ex ey)) * 2 ^ (ey + 1074)).
  { rewrite Ax. replace (ex + 1074) with ((ex - ey) + (ey + 1074)) by lia.
    rewrite (pow2_add (a:=ex - ey)) by lia. ring. }
  rewrite Hvx in *. rewrite <- Ay in Hlt, Hle |- *.
  set (a := fst (shl_align mx ex ey)) in *. set (b := fst (shl_align my ey ey)) in *.
  destruct (Zpos a - Zpos b) as [|d|d] eqn:Ed; try nia.
  cbn [binary_normalize].
  destruct (@binary_round_spec d ey ltac:(lia)) as [v [Hpos [_ [Hexact _]]]].
  split; [exact Hpos|]. rewrite Hexact; [nia|]. nia.
Qed.

(** A step that is not lost in rounding: when [T] is at most [2^50] steps
    [y] long and [x] is below [T], the sum [x + y] exceeds [x] by half of
    [y] at least. *)
Lemma SFadd_progress mx ex my ey vT :
  SpecFloat.bounded prec emax mx ex = true ->
  SpecFloat.bounded prec emax my ey = true ->
  let r := SFadd prec emax (S754_finite false mx ex) (S754_finite false my ey) in
  let vx := Zpos mx * 2 ^ (ex + 1074) in
  let vy := Zpos my * 2 ^ (ey + 1074) in
  vy <= vx -> vx < vT -> vT <= 2 ^ 50 * vy ->
  SFvalue r < 2 ^ 2098 ->
  vy <= 2 * (SFvalue r - vx).
Proof.
  intros Hx Hy r vx vy Hyx HxT HTy Hfin.
  destruct (SFadd_finite_round mx ex my ey Hx Hy) as [v [_ [Hval Hsand]]].
  fold r in Hval. fold vx vy in Hsand.
  assert (Hv : SFvalue r = v) by lia.
  rewrite Hv. clear Hval Hfin Hv.
  pose proof (bounded_mantissa _ _ Hx) as [Hex [Hmx Hnx]].
  pose proof (bounded_value _ _ Hy) as [Hvy _]. fold vy in Hvy.
  assert (HG : 0 < 2 ^ (ex + 1074)) by (apply pow2_pos; lia).
  assert (HG1 : 2 ^ (ex + 1 + 1074) = 2 * 2 ^ (ex + 1074)).
  { replace (ex + 1 + 1074) with (1 + (ex + 1074)) by lia.
    rewrite pow2_add by lia. reflexivity. }
  assert (HGmin : ex = -1074 -> 2 ^ (ex + 1074) = 1) by (intros ->; reflexivity).
  change (2 ^ 50) with 1125899906842624 in HTy.
  rewrite pow_53, pow_52 in *.
  unfold vx in *. clear vx.
  set (G := 2 ^ (ex + 1074)) in *.
  assert (HGy : G <= vy).
  { destruct Hnx as [He|Hn]; [rewrite (HGmin He); lia|nia]. }
  destruct (Z_le_gt_dec (Zpos mx * G + vy) (9007199254740992 * G)) as [Hs|Hs].
  - (* the sum stays in the binade of [x] *)
    pose proof (Z.div_mod vy G ltac:(lia)) as Hdm.
    pose proof (Z.mod_pos_bound vy G HG) as Hrem.
    set (k := vy / G) in *. set (rem := vy mod G) in *.
    assert (Hk : 1 <= k) by nia.
    assert (Hm' : Zpos mx + k <= 9007199254740992) by nia.
    assert (Hz : (Zpos mx + k) * G <= v).
    { destruct (Z.eq_dec (Zpos mx + k) 9007199254740992) as [E|E].
      - destruct (Hsand 4503599627370496%positive (ex + 1)
                    ltac:(lia) ltac:(lia) ltac:(right; lia)) as [Hdn _].
        rewrite HG1 in Hdn. fold G in Hdn. rewrite E. nia.
      - assert (Hp : 0 < Zpos mx + k) by lia.
        destruct (Zpos mx + k) as [|p|p] eqn:Ep; try lia.
        destruct (Hsand p ex ltac:(lia) ltac:(lia)
                    ltac:(destruct Hnx; [left; assumption|right; lia])) as [Hdn _].
        fold G in Hdn. apply Hdn. nia. }
    nia.
  - (* the sum is in the next binade *)
    assert (Hn : 4503599627370496 <= Zpos mx).
    { destruct Hnx as [He|Hn]; [|exact Hn]. rewrite (HGmin He) in *. lia. }
    assert (H4 : 4 * G <= vy) by nia.
    set (d := Zpos mx * G + vy - 9007199254740992 * G) in *.
    pose proof (Z.div_mod d (2 * G) ltac:(lia)) as Hdm.
    pose proof (Z.mod_pos_bound d (2 * G) ltac:(lia)) as Hrem.
    set (j := d / (2 * G)) in *. set (rem := d mod (2 * G)) in *.
    assert (Hj0 : 0 <= j) by (apply Z.div_pos; lia).
    assert (Hj : j < 4503599627370496).
    { apply Z.div_lt_upper_bound; [lia|]. unfold d. nia. }
    assert (Hp : 0 < 4503599627370496 + j) by lia.
    destruct (4503599627370496 + j) as [|p|p] eqn:Ep; try lia.
    destruct (Hsand p (ex + 1) ltac:(lia) ltac:(lia) ltac:(right; lia)) as [Hdn _].
    rewrite HG1 in Hdn. fold G in Hdn.
    assert (Hz : Zpos p * (2 * G) <= v) by (apply Hdn; rewrite <- Ep; unfold d in *; nia).
    rewrite <- Ep in Hz. unfold d in *. nia.
Qed.

End Binary64Order.

(** ** binary64: Python's positive floats *)

Section PositiveFloats.
Local Open Scope Z_scope.

Lemma positive_SF (x : float) : PrimFloat.ltb 0 x = true -> SFpositive (Prim2SF x).
Proof.
  rewrite ltb_spec. pose proof (Prim2SF_valid x) as Hv.
  change (Prim2SF 0) with (S754_zero false).
  destruct (Prim2SF x) as [s|[|]| |[|] m e]; cbn; try discriminate; auto.
Qed.

Lemma SF_positive (x : float) : SFpositive (Prim2SF x) -> PrimFloat.ltb 0 x = true.
Proof.
  rewrite ltb_spec. change (Prim2SF 0) with (S754_zero false).
  destruct (Prim2SF x) as [s|[|]| |[|] m e]; cbn; try contradiction; auto.
Qed.

Lemma float_Z_range x : PrimFloat.ltb 0 x = true -> 0 < float_Z x <= 2 ^ 2098.
Proof. intros Hx. apply SFpositive_range, positive_SF, Hx. Qed.

Lemma ltb_float_Z a b :
  PrimFloat.ltb 0 a = true -> PrimFloat.ltb 0 b = true ->
  PrimFloat.ltb a b = (float_Z a <? float_Z b).
Proof.
  intros Ha Hb. rewrite ltb_spec. unfold SFltb, float_Z.
  rewrite (SFcompare_positive _ _ (positive_SF Ha) (positive_SF Hb)).
  unfold Z.ltb. destruct (_ ?= _); reflexivity.
Qed.

Lemma leb_float_Z a b :
  PrimFloat.ltb 0 a = true -> PrimFloat.ltb 0 b = true ->
  PrimFloat.leb a b = (float_Z a <=? float_Z b).
Proof.
  intros Ha Hb. rewrite leb_spec. unfold SFleb, float_Z.
  rewrite (SFcompare_positive _ _ (positive_SF Ha) (positive_SF Hb)).
  unfold Z.leb. destruct (_ ?= _); reflexivity.
Qed.

Lemma float_Z_inj a b :
  PrimFloat.ltb 0 a = true -> PrimFloat.ltb 0 b = true ->
  float_Z a = float_Z b -> a = b.
Proof.
  intros Ha Hb Hv. apply Prim2SF_inj.
  apply SFvalue_inj; [apply positive_SF, Ha|apply positive_SF, Hb|exact Hv].
Qed.

Lemma add_positive a b :
  PrimFloat.ltb 0 a = true -> PrimFloat.ltb 0 b = true ->
  PrimFloat.ltb 0 (PrimFloat.add a b) = true
  /\ forall z, PrimFloat.ltb 0 z = true ->
       (float_Z z <= float_Z a + float_Z b -> float_Z z <= float_Z (PrimFloat.add a b))
       /\ (float_Z a + float_Z b <= float_Z z -> float_Z (PrimFloat.add a b) <= float_Z z).
Proof.
  intros Ha Hb.
  destruct (SFadd_positive _ _ (positive_SF Ha) (positive_SF Hb)) as [Hp Hs].
  rewrite <- add_spec in Hp, Hs. split; [apply SF_positive, Hp|].
  intros z Hz. apply (Hs _ (positive_SF Hz)).
Qed.

Lemma sub_exact a b :
  PrimFloat.ltb 0 a = true -> PrimFloat.ltb 0 b = true ->
  float_Z b < float_Z a -> float_Z a < 2 ^ 2098 -> float_Z a <= 2 * float_Z b ->
  PrimFloat.ltb 0 (PrimFloat.sub a b) = true
  /\ float_Z (PrimFloat.sub a b) = float_Z a - float_Z b.
Proof.
  intros Ha Hb H1 H2 H3.
  destruct (SFsub_exact _ _ (positive_SF Ha) (positive_SF Hb) H1 H2 H3) as [Hp Hv].
  rewrite <- sub_spec in Hp, Hv. split; [apply SF_positive, Hp|exact Hv].
Qed.

Lemma add_zero_l a : PrimFloat.ltb 0 a = true -> PrimFloat.add 0 a = a.
Proof.
  intros Ha. apply positive_SF in Ha. apply Prim2SF_inj. rewrite add_spec.
  change (Prim2SF 0) with (S754_zero false).
  destruct (Prim2SF a) as [s|[|]| |[|] m e]; try contradiction; reflexivity.
Qed.

Lemma sub_zero_r a : PrimFloat.ltb 0 a = true -> PrimFloat.sub a 0 = a.
Proof.
  intros Ha. apply positive_SF in Ha. apply Prim2SF_inj. rewrite sub_spec.
  change (Prim2SF 0) with (S754_zero false).
  destruct (Prim2SF a) as [s|[|]| |[|] m e]; try contradiction; reflexivity.
Qed.

Lemma positive_finite (x : float) :
  PrimFloat.ltb 0 x = true -> float_Z x < 2 ^ 2098 ->
  exists m e, Prim2SF x = S754_finite false m e
              /\ SpecFloat.bounded prec emax m e = true.
Proof.
  intros Hx Hfin. apply positive_SF in Hx. unfold float_Z in Hfin.
  destruct (Prim2SF x) as [s|[|]| |[|] m e]; try contradiction.
  - cbn [SFvalue] in Hfin. lia.
  - exists m, e. split; [reflexivity|exact Hx].
Qed.

(** On Python's floats: a step [tau] of which [T] holds [2^50] at most
    advances every time [t] below [T], [tau <= t], by half of itself at
    least. *)
Lemma add_progress (t tau T : float) :
  PrimFloat.ltb 0 t = true -> PrimFloat.ltb 0 tau = true ->
  float_Z tau <= float_Z t -> float_Z t < float_Z T ->
  float_Z T <= 2 ^ 50 * float_Z tau ->
  float_Z (PrimFloat.add t tau) < 2 ^ 2098 ->
  float_Z tau <= 2 * (float_Z (PrimFloat.add t tau) - float_Z t).
Proof.
  intros Ht Htau Hle Hlt Hlen Hfin.
  pose proof (float_Z_range Htau) as Rtau.
  assert (HT : float_Z T <= 2 ^ 2098 \/ 2 ^ 2098 < float_Z T) by lia.
  destruct (Z_lt_le_dec (float_Z t) (2 ^ 2098)) as [Hft|Hft].
  - destruct (positive_finite Ht Hft) as (mx & ex & Ex & Hbx).
    assert (Hftau : float_Z tau < 2 ^ 2098) by lia.
    destruct (positive_finite Htau Hftau) as (my & ey & Ey & Hby).
    unfold float_Z in *. rewrite add_spec in *. rewrite Ex, Ey in *.
    cbn [SFvalue] in Hle, Hlt, Hlen |- *.
    exact (SFadd_progress mx ex my ey Hbx Hby Hle Hlt Hlen Hfin).
  - (* [t] is the infinity: so is the sum *)
    exfalso. apply positive_SF in Ht. apply positive_SF in Htau.
    unfold float_Z in *. rewrite add_spec in Hfin.
    destruct (Prim2SF t) as [s|[|]| |[|] m e]; try contradiction.
    + destruct (Prim2SF tau) as [s'|[|]| |[|] m' e']; try contradiction;
        exact (Z.lt_irrefl _ Hfin).
    + pose proof (bounded_value _ _ Ht). cbn [SFvalue] in Hft. lia.
Qed.

Lemma float_Z_zero : float_Z 0 = 0.
Proof. reflexivity. Qed.

End PositiveFloats.

(** ** binary64: the clamped loops *)

Section Clamps.
Context {F : Type} `{Num F} {State : Type} `{StateOps F State}.
Variable rhs : callable State.

Ltac split_call Hb :=
  match type of Hb with
  | context [rhs ?x] =>
      let k := fresh "k" in
      let E := fresh "E" in
      destruct (rhs x) as [k| |] eqn:E; cbn beta iota zeta in Hb
  end.

Lemma RK4_body_clamps (T : F) : clamps (RK4_body rhs T) T.
Proof.
  intros v log v1 log1 h s Hh Hb.
  unfold RK4_body in Hb. rewrite Hh in Hb.
  rewrite (bind_returns _ _ _ (py_last_snoc h s log)) in Hb.
  unfold bind, call, ret in Hb. cbn beta zeta in Hb.
  do 4 (split_call Hb; try discriminate Hb).
  injection Hb as <- <-. rewrite Hh.
  eexists. reflexivity.
Qed.

Lemma RK4_first_body_clamps (T : F) : clamps (RK4_first_body (Obj rhs) T) T.
Proof. exact (RK4_body_clamps T). Qed.

Lemma RK2_body_clamps (T : F) : clamps (RK2_body (Obj rhs) T) T.
Proof.
  intros v log v1 log1 h s Hh Hb.
  unfold RK2_body in Hb. rewrite Hh in Hb.
  rewrite (bind_returns _ _ _ (py_last_snoc h s log)) in Hb.
  unfold get_rhs, bind, call, ret in Hb. cbn beta iota zeta in Hb.
  do 2 (split_call Hb; try discriminate Hb).
  injection Hb as <- <-. rewrite Hh.
  eexists. reflexivity.
Qed.

End Clamps.

Section Proceeds.

Context {F : Type} `{Num F} {State : Type} `{StateOps F State}.

Variable rhs : callable State.
Hypothesis Hrhs : always_returns rhs.

(** Runs the next call of [rhs] in the goal. *)
Ltac next_rhs :=
  match goal with
  | |- context [rhs ?x] =>
      let d := fresh "d" in let E := fresh "E" in
      destruct (Hrhs x) as [d E]; rewrite E; cbn beta iota zeta
  end.

Lemma RK4_body_proceeds (T : F) : proceeds (RK4_body rhs T).
Proof.
  intros v log h s Hh. unfold RK4_body. rewrite Hh.
  rewrite (bind_returns _ _ _ (py_last_snoc h s log)).
  unfold bind, call, ret. cbn beta zeta.
  do 4 next_rhs. eexists; eexists; reflexivity.
Qed.

Lemma RK2_body_proceeds (T : F) : proceeds (RK2_body (Obj rhs) T).
Proof.
  intros v log h s Hh. unfold RK2_body. rewrite Hh.
  rewrite (bind_returns _ _ _ (py_last_snoc h s log)).
  unfold get_rhs, bind, call, ret. cbn beta iota zeta.
  do 2 next_rhs. eexists; eexists; reflexivity.
Qed.

End Proceeds.

Lemma decay_returns {F} `{Num F} : always_returns (decay_rhs (F:=F)).
Proof. intros y. exists (opp y). reflexivity. Qed.

Section Order64.

Local Open Scope Z_scope.

Lemma ltb_irrefl64 (a : float) : PrimFloat.ltb 0 a = true -> PrimFloat.ltb a a = false.
Proof. intros Ha. rewrite (ltb_float_Z Ha Ha). apply Z.ltb_irrefl. Qed.

Lemma leb_refl64 (a : float) : PrimFloat.ltb 0 a = true -> PrimFloat.leb a a = true.
Proof. intros Ha. rewrite (leb_float_Z Ha Ha). apply Z.leb_refl. Qed.

Lemma leb_zero64 (a : float) : PrimFloat.ltb 0 a = true -> PrimFloat.leb 0 a = true.
Proof.
  intros Ha. apply positive_SF in Ha. rewrite leb_spec.
  change (Prim2SF 0) with (S754_zero false).
  destruct (Prim2SF a) as [s|[|]| |[|] m e]; try contradiction; reflexivity.
Qed.

Lemma leb_antisym64 (a b : float) :
  PrimFloat.ltb 0 a = true -> PrimFloat.ltb 0 b = true ->
  PrimFloat.leb a b = true -> PrimFloat.ltb a b = false -> a = b.
Proof.
  intros Ha Hb Hle Hlt.
  rewrite (leb_float_Z Ha Hb) in Hle. apply Z.leb_le in Hle.
  rewrite (ltb_float_Z Ha Hb) in Hlt. apply Z.ltb_ge in Hlt.
  apply float_Z_inj; [assumption..|lia].
Qed.

Lemma ltb_trans64 (a b c : float) :
  PrimFloat.ltb 0 b = true -> PrimFloat.ltb 0 c = true ->
  a = 0%float \/ PrimFloat.ltb 0 a = true ->
  PrimFloat.ltb a b = true -> PrimFloat.ltb b c = true -> PrimFloat.ltb a c = true.
Proof.
  intros Hb Hc [->|Ha] Hab Hbc; [exact Hc|].
  rewrite (ltb_float_Z Ha Hb) in Hab. apply Z.ltb_lt in Hab.
  rewrite (ltb_float_Z Hb Hc) in Hbc. apply Z.ltb_lt in Hbc.
  rewrite (ltb_float_Z Ha Hc). apply Z.ltb_lt. lia.
Qed.

(** One pass of a clamped loop on binary64, seen on the time alone. *)
Lemma clamped_step64 (tau T t : float) :
  PrimFloat.ltb 0 tau = true -> PrimFloat.ltb 0 T = true ->
  t = 0%float \/ (PrimFloat.ltb 0 t = true /\ PrimFloat.leb tau t = true) ->
  PrimFloat.ltb t T = true ->
  let c := clamp (F:=float) t tau T in
  let t1 := PrimFloat.add t c in
  PrimFloat.ltb 0 t1 = true /\ PrimFloat.leb t1 T = true
  /\ (t1 = T
      \/ (c = tau /\ PrimFloat.leb tau t1 = true
          /\ (PrimFloat.ltb t t1 = true \/ t1 = t))).
Proof.
  intros Htau HT Ht HtT c t1.
  pose proof (float_Z_range Htau) as Rtau. pose proof (float_Z_range HT) as RT.
  assert (HTT : PrimFloat.leb T T = true).
  { rewrite (leb_float_Z HT HT). apply Z.leb_le. lia. }
  destruct Ht as [->|[Hpos Hle]].
  - (* the first pass *)
    subst c t1. unfold clamp, gtb. cbn [add sub ltb Num_float].
    rewrite (add_zero_l Htau).
    destruct (PrimFloat.ltb T tau) eqn:Ec.
    + rewrite (sub_zero_r HT), (add_zero_l HT). auto.
    + rewrite (add_zero_l Htau). split; [exact Htau|].
      rewrite (ltb_float_Z HT Htau) in Ec. apply Z.ltb_ge in Ec.
      split; [rewrite (leb_float_Z Htau HT); apply Z.leb_le; lia|].
      right. split; [reflexivity|].
      split; [rewrite (leb_float_Z Htau Htau); apply Z.leb_le; lia|].
      left. exact Htau.
  - pose proof (float_Z_range Hpos) as Rt.
    rewrite (leb_float_Z Htau Hpos) in Hle. apply Z.leb_le in Hle.
    rewrite (ltb_float_Z Hpos HT) in HtT. apply Z.ltb_lt in HtT.
    destruct (add_positive Hpos Htau) as [Hsum Hs].
    subst c t1. unfold clamp, gtb. cbn [add sub ltb Num_float].
    destruct (PrimFloat.ltb T (PrimFloat.add t tau)) eqn:Ec.
    + (* the clamp *)
      rewrite (ltb_float_Z HT Hsum) in Ec. apply Z.ltb_lt in Ec.
      assert (H2 : float_Z T <= 2 * float_Z t).
      { destruct (Z_le_gt_dec (float_Z T) (2 * float_Z t)) as [|Hgt]; [assumption|].
        destruct (Hs T HT) as [_ Hup]. specialize (Hup ltac:(lia)). lia. }
      pose proof (float_Z_range Hsum) as Rsum.
      destruct (sub_exact HT Hpos HtT ltac:(lia) H2) as [Hc Hv].
      destruct (add_positive Hpos Hc) as [Hback Hb].
      destruct (Hb T HT) as [Hdn Hup].
      assert (E : PrimFloat.add t (PrimFloat.sub T t) = T).
      { apply float_Z_inj; [exact Hback|exact HT|].
        specialize (Hdn ltac:(lia)). specialize (Hup ltac:(lia)). lia. }
      rewrite E. auto.
    + rewrite (ltb_float_Z HT Hsum) in Ec. apply Z.ltb_ge in Ec.
      destruct (Hs t Hpos) as [Hdn _]. specialize (Hdn ltac:(lia)).
      destruct (Hs tau Htau) as [Hdn' _]. specialize (Hdn' ltac:(lia)).
      split; [exact Hsum|].
      split; [rewrite (leb_float_Z Hsum HT); apply Z.leb_le; lia|].
      right. split; [reflexivity|].
      split; [rewrite (leb_float_Z Htau Hsum); apply Z.leb_le; lia|].
      destruct (Z.eq_dec (float_Z t) (float_Z (PrimFloat.add t tau))) as [Heq|Hne].
      * right. symmetry. apply float_Z_inj; assumption.
      * left. rewrite (ltb_float_Z Hpos Hsum). apply Z.ltb_lt. lia.
Qed.

End Order64.

Lemma increases_sorted (l : list float) : forall lo : float,
  lo = 0%float \/ PrimFloat.ltb 0 lo = true ->
  Forall (fun t => PrimFloat.ltb 0 t = true) l ->
  increases lo l ->
  StronglySorted (fun a b : float => ltb a b = true) (lo :: l).
Proof.
  induction l as [|x l IH]; intros lo Hlo Hpos Hinc.
  - constructor; constructor.
  - destruct Hinc as [Hx Hinc]. inversion Hpos as [|? ? Hpx Hpl]; subst.
    specialize (IH x (or_intror Hpx) Hpl Hinc).
    constructor; [exact IH|].
    constructor; [exact Hx|].
    inversion IH as [|? ? _ Hall]; subst.
    clear - Hlo Hx Hpx Hpl Hall.
    induction l as [|y l IHl]; [constructor|].
    inversion Hpl; subst. inversion Hall; subst.
    constructor; [|apply IHl; assumption].
    apply (@ltb_trans64 lo x y); assumption.
Qed.

Section ClampedLoop64.

Context {State : Type}.
Variable body : rk_vars (F:=float) (State:=State)
  -> M State (rk_vars (F:=float) (State:=State)).
Variables T tau : float.
Hypothesis Hbody : clamps body T.
Hypothesis Htau : PrimFloat.ltb 0 tau = true.
Hypothesis HT : PrimFloat.ltb 0 T = true.

(** A pass that leaves the time and the step as they were is repeated for
    ever. *)
Lemma stuck_loop64 : forall fuel v log h s r,
  history v = h ++ [s] ->
  ltb (v_t v) T = true ->
  clamp (v_t v) (v_tau v) T = v_tau v ->
  add (v_t v) (v_tau v) = v_t v ->
  while fuel (fun v => ltb (v_t v) T) body v log <> Returns r.
Proof.
  induction fuel as [|fuel IH]; intros v log h s r Hh Hc Hcl Hadd Hw;
    [discriminate Hw|].
  cbn [while] in Hw. rewrite Hc in Hw. unfold bind in Hw.
  destruct (body v log) as [[v1 log1]| |] eqn:Hb; try discriminate Hw.
  destruct (Hbody _ _ Hh Hb) as [s' ->].
  rewrite Hcl, Hadd in Hw.
  eapply IH with (h := history v); [| | | |exact Hw]; cbn [history v_t v_tau];
    try reflexivity; assumption.
Qed.

Lemma clamped_loop64 : forall fuel v log v' log' h s,
  history v = h ++ [s] ->
  v_tau v = tau ->
  v_t v = 0%float
    \/ (PrimFloat.ltb 0 (v_t v) = true /\ PrimFloat.leb tau (v_t v) = true) ->
  while fuel (fun v => ltb (v_t v) T) body v log = Returns (v', log') ->
  exists ext,
    times v' = times v ++ ext
    /\ clamped_times T (v_t v) (v_tau v) ext
    /\ increases (v_t v) ext
    /\ Forall (fun t => PrimFloat.ltb 0 t = true /\ PrimFloat.leb t T = true) ext
    /\ ((ltb (v_t v) T = false /\ ext = [])
        \/ (ltb (v_t v) T = true /\ ext <> [] /\ last ext 0%float = T)).
Proof.
  induction fuel as [|fuel IH]; intros v log v' log' h s Hh Hv Hinv Hw;
    [discriminate Hw|].
  cbn [while] in Hw. destruct (ltb (v_t v) T) eqn:Ec.
  - unfold bind in Hw.
    destruct (body v log) as [[v1 log1]| |] eqn:Hb; try discriminate Hw.
    destruct (Hbody _ _ Hh Hb) as [s' ->].
    rewrite Hv in *.
    destruct (clamped_step64 Htau HT Hinv Ec) as [Hp1 [Hle1 Hcase]].
    change (@add float Num_float) with PrimFloat.add in *.
    set (c := clamp (v_t v) tau T) in *.
    set (t1 := PrimFloat.add (v_t v) c) in *.
    destruct Hcase as [HeqT|[Hc [Hle [Hlt|Hstuck]]]].
    + (* the time is now T: the loop is left *)
      destruct fuel as [|fuel]; [discriminate Hw|].
      cbn [while v_t] in Hw.
      rewrite HeqT in Hw.
      change (ltb T T) with (PrimFloat.ltb T T) in Hw.
      rewrite (ltb_irrefl64 HT) in Hw.
      injection Hw as <- <-. cbn [times].
      exists [T].
      split; [reflexivity|].
      split; [split; [symmetry; exact HeqT|exact I]|].
      split; [split; [exact Ec|exact I]|].
      split; [constructor; [split; [exact HT|exact (leb_refl64 HT)]|constructor]|].
      right. split; [reflexivity|]. split; [discriminate|reflexivity].
    + (* a full step *)
      eapply IH with (h := history v) in Hw; cbn [history v_t v_tau];
        [|reflexivity|exact Hc|right; split; assumption].
      destruct Hw as (ext & Ht & Hcl & Hinc & Hall & Hlast).
      cbn [times v_t v_tau] in Ht, Hcl, Hinc, Hlast.
      exists (t1 :: ext).
      split; [rewrite Ht, <- app_assoc; reflexivity|].
      split; [split; [reflexivity|exact Hcl]|].
      split; [split; [exact Hlt|exact Hinc]|].
      split; [constructor; [split; assumption|exact Hall]|].
      right. split; [reflexivity|]. split; [discriminate|].
      destruct Hlast as [[Hex ->]|[_ [Hne Hl]]].
      * cbn [last]. apply leb_antisym64; assumption.
      * destruct ext as [|x ext]; [contradiction|]. exact Hl.
    + (* no progress: the loop cannot have returned *)
      exfalso.
      eapply stuck_loop64 with (h := history v); [| | | |exact Hw];
        cbn [history v_t v_tau]; fold t1.
      * reflexivity.
      * rewrite Hstuck. exact Ec.
      * assert (Hc' : clamp (v_t v) tau T = tau) by exact Hc.
        rewrite Hstuck, Hc. exact Hc'.
      * rewrite Hstuck. exact Hstuck.
  - injection Hw as <- <-. exists [].
    split; [rewrite app_nil_r; reflexivity|].
    split; [exact I|]. split; [exact I|]. split; [constructor|].
    left. split; reflexivity.
Qed.

(** A run of the loop from time [0]. *)
Lemma clamped_run64 (fuel : nat) (state0 : State) log v' log' :
  while fuel (fun v => ltb (v_t v) T) body
    {| v_t := 0%float; v_tau := tau; times := [0%float]; history := [state0] |} log
    = Returns (v', log') ->
  exists ext,
    times v' = 0%float :: ext
    /\ clamped_times T 0%float tau ext
    /\ last (times v') 0%float = T
    /\ Forall (fun t => PrimFloat.leb t T = true) (times v')
    /\ StronglySorted (fun a b : float => ltb a b = true) (times v').
Proof.
  intros Hw.
  eapply clamped_loop64 with (h := []) in Hw; cbn [history v_t v_tau];
    [|reflexivity|reflexivity|left; reflexivity].
  destruct Hw as (ext & Ht & Hcl & Hinc & Hall & Hlast).
  cbn [times v_t v_tau app] in Ht, Hcl, Hinc, Hlast.
  exists ext. rewrite Ht.
  split; [reflexivity|]. split; [exact Hcl|].
  change (ltb 0%float T) with (PrimFloat.ltb 0 T) in Hlast. rewrite HT in Hlast.
  destruct Hlast as [[Hex _]|[_ [Hne Hl]]]; [discriminate Hex|].
  split; [destruct ext as [|x ext]; [contradiction|exact Hl]|].
  split.
  - constructor; [exact (leb_zero64 HT)|].
    eapply Forall_impl; [|exact Hall]. intros t [_ Ht']. exact Ht'.
  - apply increases_sorted; [left; reflexivity| |exact Hinc].
    eapply Forall_impl; [|exact Hall]. intros t [Ht' _]. exact Ht'.
Qed.

End ClampedLoop64.

Section ClampedLoopEnds64.

Context {State : Type}.
Variable body : rk_vars (F:=float) (State:=State)
  -> M State (rk_vars (F:=float) (State:=State)).
Variables T tau : float.
Hypothesis Hbody : clamps body T.
Hypothesis Hgo : proceeds body.
Hypothesis Htau : PrimFloat.ltb 0 tau = true.
Hypothesis HT : PrimFloat.ltb 0 T = true.
Hypothesis Hfin : (float_Z T < 2 ^ 2098)%Z.
Hypothesis Hlen : (float_Z T <= 2 ^ 50 * float_Z tau)%Z.

(** The loop ends: every pass but the last brings the time nearer to [T] by
    half a step at least. *)
Lemma clamped_loop_ends64 : forall n v log h s,
  history v = h ++ [s] ->
  v_tau v = tau ->
  v_t v = 0%float
    \/ (PrimFloat.ltb 0 (v_t v) = true /\ PrimFloat.leb tau (v_t v) = true) ->
  (2 * (float_Z T - float_Z (v_t v)) < Z.of_nat n * float_Z tau)%Z ->
  forall k, exists v' log',
    while (S n + k) (fun v => ltb (v_t v) T) body v log = Returns (v', log').
Proof.
  pose proof (float_Z_range Htau) as Rtau. pose proof (float_Z_range HT) as RT.
  induction n as [|n IH]; intros v log h s Hh Hv Hinv Hm k;
    cbn [while Nat.add]; destruct (ltb (v_t v) T) eqn:Ec;
    try (eexists; eexists; reflexivity).
  - (* no pass is left, yet the test holds *)
    exfalso.
    destruct Hinv as [E|[Hp _]].
    + rewrite E, float_Z_zero in Hm. lia.
    + change (PrimFloat.ltb (v_t v) T = true) in Ec.
      rewrite (ltb_float_Z Hp HT) in Ec. apply Z.ltb_lt in Ec. lia.
  - destruct (Hgo v log h s Hh) as (v1 & log1 & Hb).
    rewrite (bind_returns _ _ _ Hb).
    destruct (Hbody _ _ Hh Hb) as [s' ->].
    rewrite Hv in *.
    destruct (clamped_step64 Htau HT Hinv Ec) as [Hp1 [Hle1 Hcase]].
    change (@add float Num_float) with PrimFloat.add in *.
    set (c := clamp (v_t v) tau T) in *.
    set (t1 := PrimFloat.add (v_t v) c) in *.
    destruct Hcase as [HeqT|[Hc [Hle _]]].
    + (* the time is now T *)
      cbn [while v_t]. rewrite HeqT.
      change (ltb T T) with (PrimFloat.ltb T T).
      rewrite (ltb_irrefl64 HT). eexists; eexists; reflexivity.
    + (* a full step *)
      eapply IH with (h := history v); cbn [history v_t v_tau];
        [reflexivity|exact Hc|right; split; assumption|].
      rewrite (leb_float_Z Hp1 HT) in Hle1. apply Z.leb_le in Hle1.
      assert (Hprog : (float_Z tau <= 2 * (float_Z t1 - float_Z (v_t v)))%Z).
      { destruct Hinv as [E|[Hp Hlet]].
        - unfold t1. rewrite Hc, E, (add_zero_l Htau), float_Z_zero. lia.
        - change (PrimFloat.ltb (v_t v) T = true) in Ec.
          rewrite (ltb_float_Z Hp HT) in Ec. apply Z.ltb_lt in Ec.
          rewrite (leb_float_Z Htau Hp) in Hlet. apply Z.leb_le in Hlet.
          unfold t1 in *. rewrite Hc in *.
          apply (@add_progress (v_t v) tau T); try assumption. lia. }
      lia.
Qed.

(** The fuel that is enough: twice the number of steps [tau] that [T]
    holds, and two. *)
Lemma clamped_run_ends64 (state0 : State) (log : list State) (k : nat) :
  let n := S (Z.to_nat (2 * float_Z T / float_Z tau)) in
  exists v' log',
    while (S n + k) (fun v => ltb (v_t v) T) body
      {| v_t := 0%float; v_tau := tau; times := [0%float]; history := [state0] |}
      log = Returns (v', log').
Proof.
  intros n.
  pose proof (float_Z_range Htau) as Rtau. pose proof (float_Z_range HT) as RT.
  apply clamped_loop_ends64 with (h := []) (s := state0);
    cbn [history v_t v_tau]; [reflexivity|reflexivity|left; reflexivity|].
  rewrite float_Z_zero. unfold n.
  rewrite Nat2Z.inj_succ, Z2Nat.id by (apply Z.div_pos; lia).
  pose proof (Z.div_mod (2 * float_Z T) (float_Z tau) ltac:(lia)) as Hdm.
  pose proof (Z.mod_pos_bound (2 * float_Z T) (float_Z tau) ltac:(lia)) as Hrem.
  nia.
Qed.

End ClampedLoopEnds64.

Section ClampedDrivers64.

Context {State : Type} `{StateOps float State}.

Variable rhs : callable State.

(** A finite [T]: its value is below that of the infinity. *)
Lemma finite_float_Z (T : float) :
  PrimFloat.ltb 0 T = true -> PrimFloat.ltb T infinity = true ->
  (float_Z T < 2 ^ 2098)%Z.
Proof.
  intros HT Hfin.
  assert (Hinf : PrimFloat.ltb 0 infinity = true) by reflexivity.
  rewrite (@ltb_float_Z T infinity HT Hinf) in Hfin.
  apply Z.ltb_lt in Hfin. exact Hfin.
Qed.

(** The three drivers return when [rhs] does, [T] is finite and at most
    [2^50] steps long. *)
Lemma clamped_drivers_return64 (state0 : State) (tau T : float)
    (log : list State) (k : nat) :
  always_returns rhs ->
  PrimFloat.ltb 0 tau = true -> PrimFloat.ltb 0 T = true ->
  PrimFloat.ltb T infinity = true ->
  (float_Z T <= 2 ^ 50 * float_Z tau)%Z ->
  let fuel := (Z.to_nat (2 * float_Z T / float_Z tau) + 2 + k)%nat in
  returned (integrate_RK4 rhs fuel state0 tau T log) = true
  /\ returned (integrate_RK4_first_with (Obj rhs) fuel state0 tau T log) = true
  /\ returned (integrate_RK2_with (Obj rhs) fuel state0 tau T log) = true.
Proof.
  intros Hrhs Htau HT Hfin Hlen fuel.
  pose proof (finite_float_Z HT Hfin) as Hfin'.
  replace fuel with (S (S (Z.to_nat (2 * float_Z T / float_Z tau))) + k)%nat
    by (unfold fuel; lia).
  split; [|split].
  - destruct (clamped_run_ends64 (RK4_body_clamps rhs T) (RK4_body_proceeds Hrhs T)
                Htau HT Hfin' Hlen state0 log k) as (v' & log' & Hw).
    unfold integrate_RK4. rewrite (bind_returns _ _ _ Hw). reflexivity.
  - destruct (clamped_run_ends64 (RK4_first_body_clamps rhs T)
                (RK4_body_proceeds Hrhs T : proceeds (RK4_first_body (Obj rhs) T))
                Htau HT Hfin' Hlen state0 log k) as (v' & log' & Hw).
    unfold integrate_RK4_first_with. simpl app.
    rewrite (bind_returns _ _ _ Hw). reflexivity.
  - destruct (clamped_run_ends64 (RK2_body_clamps rhs T) (RK2_body_proceeds Hrhs T)
                Htau HT Hfin' Hlen state0 log k) as (v' & log' & Hw).
    unfold integrate_RK2_with. simpl app.
    rewrite (bind_returns _ _ _ Hw). reflexivity.
Qed.

(** C1, as the code has it, on binary64: for every initial state, right-hand
    side, [tau > 0] and [T > 0], whenever [integrate_RK4] returns, the
    recorded times start at [0], each is the one before plus the step
    clamped against [T] ([T - t] whenever [t + tau > T], a clamped step
    staying in force), the last one is [T] exactly and none is above [T];
    and it does return when [rhs] returns, [T] is finite and at most [2^50]
    steps [tau] long.  So for [integrate_RK2] and the first [integrate_RK4]
    once an object with [rhs] stands for the placeholder.  [integrate_euler]
    has no clamp. *)
Theorem clamped_drivers_end_on_T_binary64 (state0 : State) (tau T : float)
    (log : list State) :
  PrimFloat.ltb 0 tau = true -> PrimFloat.ltb 0 T = true ->
  (forall fuel ts hs log',
     integrate_RK4 rhs fuel state0 tau T log = Returns ((ts, hs), log')
     \/ integrate_RK4_first_with (Obj rhs) fuel state0 tau T log
        = Returns ((ts, hs), log')
     \/ integrate_RK2_with (Obj rhs) fuel state0 tau T log
        = Returns ((ts, hs), log') ->
     (exists rest, ts = 0%float :: rest /\ clamped_times T 0%float tau rest)
     /\ last ts 0%float = T
     /\ Forall (fun t => PrimFloat.leb t T = true) ts)
  /\ (always_returns rhs ->
      PrimFloat.ltb T infinity = true ->
      (float_Z T <= 2 ^ 50 * float_Z tau)%Z ->
      forall k,
        let fuel := (Z.to_nat (2 * float_Z T / float_Z tau) + 2 + k)%nat in
        returned (integrate_RK4 rhs fuel state0 tau T log) = true
        /\ returned (integrate_RK4_first_with (Obj rhs) fuel state0 tau T log)
           = true
        /\ returned (integrate_RK2_with (Obj rhs) fuel state0 tau T log) = true).
Proof.
  intros Htau HT. split.
  - intros fuel ts hs log' Hrun.
    assert (Hloop : exists body v', clamps body T
              /\ while fuel (fun v => ltb (v_t v) T) body
                   {| v_t := 0%float; v_tau := tau; times := [0%float];
                      history := [state0] |} log = Returns (v', log')
              /\ ts = times v').
    { destruct Hrun as [Hw|[Hw|Hw]].
      - unfold integrate_RK4, bind in Hw.
        destruct (while fuel _ _ _ log) as [[v l]| |] eqn:E; try discriminate Hw.
        injection Hw as <- <- <-. exists (RK4_body rhs T), v.
        split; [apply RK4_body_clamps|]. split; [exact E|reflexivity].
      - unfold integrate_RK4_first_with, bind in Hw. simpl app in Hw.
        destruct (while fuel _ _ _ log) as [[v l]| |] eqn:E; try discriminate Hw.
        injection Hw as <- <- <-. exists (RK4_first_body (Obj rhs) T), v.
        split; [apply RK4_first_body_clamps|]. split; [exact E|reflexivity].
      - unfold integrate_RK2_with, bind in Hw. simpl app in Hw.
        destruct (while fuel _ _ _ log) as [[v l]| |] eqn:E; try discriminate Hw.
        injection Hw as <- <- <-. exists (RK2_body (Obj rhs) T), v.
        split; [apply RK2_body_clamps|]. split; [exact E|reflexivity]. }
    destruct Hloop as (body & v' & Hb & Hw & ->).
    destruct (clamped_run64 Hb Htau HT fuel state0 log Hw)
      as (ext & Ht & Hcl & Hlast & Hall & _).
    split; [exists ext; split; assumption|]. split; assumption.
  - intros Hrhs Hfin Hlen k.
    exact (clamped_drivers_return64 state0 log k Hrhs Htau HT Hfin Hlen).
Qed.


End ClampedDrivers64.

(** ** binary64: a step that is not positive *)

Section Binary64Negative.
Local Open Scope Z_scope.

Lemma binary_round_aux_opp m e l :
  binary_round_aux prec emax true m e l
  = SFopp (binary_round_aux prec emax false m e l).
Proof.
  unfold binary_round_aux.
  destruct (shr_fexp prec emax m e l) as [mrs' e'].
  destruct (shr_fexp prec emax _ e' loc_Exact) as [mrs'' e''].
  destruct (shr_m mrs''); [reflexivity| |reflexivity].
  destruct (e'' <=? emax - prec); reflexivity.
Qed.

Lemma binary_round_opp M e :
  binary_round prec emax true M e = SFopp (binary_round prec emax false M e).
Proof.
  unfold binary_round.
  destruct (shl_align M e (fexp prec emax (Zpos (digits2_pos M) + e))) as [mz ez].
  apply binary_round_aux_opp.
Qed.

(** The sum of two numbers that are zero or negative is zero or negative. *)
Lemma SFadd_nonpositive x y :
  SFnonpositive x -> SFnonpositive y -> SFnonpositive (SFadd prec emax x y).
Proof.
  destruct x as [sx|[|]| |[|] mx ex]; try contradiction;
    destruct y as [sy|[|]| |[|] my ey]; try contradiction;
    cbn [SFnonpositive]; intros Hx Hy;
    try (cbn [SFadd SFnonpositive]; (assumption || exact I)).
  - destruct sx, sy; exact I.
  - unfold SFadd, cond_Zopp.
    pose proof (bounded_mantissa _ _ Hx) as [Hex _].
    pose proof (bounded_mantissa _ _ Hy) as [Hey _].
    set (ez := Z.min ex ey).
    change (- Zpos (fst (shl_align mx ex ez)) + - Zpos (fst (shl_align my ey ez)))
      with (Zneg (fst (shl_align mx ex ez) + fst (shl_align my ey ez))).
    cbn [binary_normalize]. rewrite binary_round_opp.
    destruct (@binary_round_spec (fst (shl_align mx ex ez) + fst (shl_align my ey ez)) ez
                ltac:(lia)) as [v [Hpos _]].
    destruct (binary_round prec emax false _ ez) as [s|[|]| |[|] m e];
      try contradiction; cbn; assumption || exact I.
Qed.

Lemma nonpositive_SF (x : float) :
  PrimFloat.leb x 0 = true -> SFnonpositive (Prim2SF x).
Proof.
  rewrite leb_spec. pose proof (Prim2SF_valid x) as Hv.
  change (Prim2SF 0) with (S754_zero false).
  destruct (Prim2SF x) as [s|[|]| |[|] m e]; cbn; try discriminate; auto.
Qed.

Lemma SF_nonpositive (x : float) :
  SFnonpositive (Prim2SF x) -> PrimFloat.leb x 0 = true.
Proof.
  rewrite leb_spec. change (Prim2SF 0) with (S754_zero false).
  destruct (Prim2SF x) as [s|[|]| |[|] m e]; cbn; try contradiction; auto.
Qed.

Lemma add_nonpositive (a b : float) :
  PrimFloat.leb a 0 = true -> PrimFloat.leb b 0 = true ->
  PrimFloat.leb (PrimFloat.add a b) 0 = true.
Proof.
  intros Ha Hb. apply SF_nonpositive. rewrite add_spec.
  apply SFadd_nonpositive; apply nonpositive_SF; assumption.
Qed.

(** A number that is zero or negative is below every positive one. *)
Lemma nonpositive_below (x T : float) :
  PrimFloat.leb x 0 = true -> PrimFloat.ltb 0 T = true ->
  PrimFloat.ltb x T = true /\ PrimFloat.ltb T x = false.
Proof.
  intros Hx HT. apply nonpositive_SF in Hx. apply positive_SF in HT.
  rewrite !ltb_spec.
  destruct (Prim2SF x) as [sx|[|]| |[|] mx ex]; try contradiction;
    destruct (Prim2SF T) as [sT|[|]| |[|] mT eT]; try contradiction;
    split; reflexivity.
Qed.

End Binary64Negative.

Section NeverEnds64.

Context {State : Type}.
Variable body : rk_vars (F:=float) (State:=State)
  -> M State (rk_vars (F:=float) (State:=State)).
Variable T : float.
Hypothesis Hbody : clamps body T.
Hypothesis Hgo : proceeds body.
Hypothesis HT : PrimFloat.ltb 0 T = true.

(** With a step that is zero or negative the time stays at or below zero,
    the clamp is never taken and the loop test never fails. *)
Lemma clamped_loop_never_ends64 : forall fuel v log h s,
  history v = h ++ [s] ->
  PrimFloat.leb (v_t v) 0 = true -> PrimFloat.leb (v_tau v) 0 = true ->
  while fuel (fun v => ltb (v_t v) T) body v log = NoFuel.
Proof.
  induction fuel as [|fuel IH]; intros v log h s Hh Ht Htau; [reflexivity|].
  destruct (nonpositive_below Ht HT) as [Hlt _].
  rewrite while_step by exact Hlt.
  destruct (Hgo v log h s Hh) as (v1 & log1 & Hb).
  rewrite (bind_returns _ _ _ Hb).
  destruct (Hbody _ _ Hh Hb) as [s' ->].
  pose proof (add_nonpositive Ht Htau) as Hsum.
  destruct (nonpositive_below Hsum HT) as [_ Hgt].
  assert (Hc : clamp (v_t v) (v_tau v) T = v_tau v).
  { unfold clamp, gtb. cbn [add sub ltb Num_float]. rewrite Hgt. reflexivity. }
  rewrite Hc.
  apply (IH _ _ (history v) s'); cbn [history v_t v_tau];
    [reflexivity|exact Hsum|exact Htau].
Qed.

End NeverEnds64.

(** X11: On binary64, with [tau <= 0 < T] and a right-hand side that returns,
    [integrate_RK4] never ends: no number of iterations makes the loop
    return or raise. *)
Theorem integrate_RK4_never_ends {State} `{StateOps float State}
    (rhs : callable State) (state0 : State) (tau T : float) (log : list State) :
  always_returns rhs ->
  PrimFloat.leb tau 0 = true -> PrimFloat.ltb 0 T = true ->
  forall fuel, integrate_RK4 rhs fuel state0 tau T log = NoFuel.
Proof.
  intros Hrhs Htau HT fuel. unfold integrate_RK4. apply bind_nofuel.
  apply (clamped_loop_never_ends64 (RK4_body_clamps rhs T) (RK4_body_proceeds Hrhs T) HT)
    with (h := []) (s := state0); reflexivity || assumption.
Qed.

Section EulerNeverEnds.
Variable np_sin : float -> float.
Variable self : SimplePendulum (F:=float).
Variables dt tmax : float.

(** X10: On binary64, with [dt <= 0 < tmax] and [L] not zero,
    [integrate_euler] never ends, whatever [np.sin] returns: no number of
    iterations makes the loop return or raise. *)
Theorem integrate_euler_never_ends (log : list (float * float)) :
  PrimFloat.eqb (L self) 0 = false ->
  PrimFloat.leb dt 0 = true -> PrimFloat.ltb 0 tmax = true ->
  forall fuel, integrate_euler np_sin fuel self dt tmax log = NoFuel.
Proof.
  intros HL Hdt Htmax fuel. unfold integrate_euler. apply bind_nofuel.
  assert (HL' : eqb (L self) lit_0 = false) by exact HL.
  assert (Hloop : forall fuel v log a b theta omega,
             PrimFloat.leb (e_t v) 0 = true ->
             theta_s v = a ++ [theta] -> omega_s v = b ++ [omega] ->
             while fuel (fun v => ltb (e_t v) tmax) (euler_body np_sin self dt)
               v log = NoFuel).
  { clear fuel log.
    induction fuel as [|fuel IH]; intros v log a b theta omega Ht Ha Hb;
      [reflexivity|].
    destruct (nonpositive_below Ht Htmax) as [Hlt _].
    rewrite while_step by exact Hlt.
    rewrite (bind_returns _ _ _
                 (euler_body_returns np_sin self dt v a b theta omega log Ha Hb HL')).
    eapply IH; cbn [e_t theta_s omega_s];
      [exact (add_nonpositive Ht Hdt) | reflexivity | reflexivity]. }
  eapply (Hloop fuel _ log [] []); cbn [e_t theta_s omega_s];
    [reflexivity | reflexivity | reflexivity].
Qed.

End EulerNeverEnds.

(** ** binary64: the Euler loop ends *)

Section EulerEnds.

Variable np_sin : float -> float.
Variable self : SimplePendulum (F:=float).
Variables dt tmax : float.
Hypothesis HL : PrimFloat.eqb (L self) 0 = false.
Hypothesis Hdt : PrimFloat.ltb 0 dt = true.
Hypothesis Htmax : PrimFloat.ltb 0 tmax = true.
Hypothesis Hfin : PrimFloat.ltb tmax infinity = true.
Hypothesis Hlen : (float_Z tmax <= 2 ^ 50 * float_Z dt)%Z.


End EulerEnds.


(** ** The further statements at concrete inputs *)

Lemma integrate_RK4_run_shape_witness :
  let ts := [0%float; 1%float] in
  let hs := [1%float; 0x1.8p-2%float] in
  let log' := [1%float; 0.5%float; 0.75%float; 0.25%float] in
  integrate_RK4 decay_rhs 2 1%float 1%float 1%float [] = Returns ((ts, hs), log')
  /\ (length hs = length ts
      /\ hd_error ts = Some lit_0 /\ hd_error hs = Some 1%float
      /\ ltb (last ts lit_0) 1%float = false
      /\ exists calls, log' = [] ++ calls
           /\ length calls = (4 * (length ts - 1))%nat).
Proof.
  intros ts hs log'.
  assert (E : integrate_RK4 decay_rhs 2 1%float 1%float 1%float []
              = Returns ((ts, hs), log')) by reflexivity.
  split; [exact E|].
  exact (integrate_RK4_run_shape decay_rhs 2 1%float 1%float 1%float [] E).
Defined.

Lemma integrate_RK2_run_shape_witness :
  let ts := [0%float; 1%float] in
  let hs := [1%float; 0.5%float] in
  let log' := [1%float; 0.5%float] in
  integrate_RK2_with (Obj decay_rhs) 2 1%float 1%float 1%float []
    = Returns ((ts, hs), log')
  /\ (length hs = length ts
      /\ hd_error ts = Some lit_0 /\ hd_error hs = Some 1%float
      /\ ltb (last ts lit_0) 1%float = false
      /\ exists calls, log' = [] ++ calls
           /\ length calls = (2 * (length ts - 1))%nat).
Proof.
  intros ts hs log'.
  assert (E : integrate_RK2_with (Obj decay_rhs) 2 1%float 1%float 1%float []
              = Returns ((ts, hs), log')) by reflexivity.
  split; [exact E|].
  exact (integrate_RK2_run_shape decay_rhs 2 1%float 1%float 1%float [] E).
Defined.


Lemma integrate_euler_run_shape_witness :
  let self := SimplePendulum_init np_radians64 lit_10 lit_9_81 lit_9_81 in
  let omega1 :=
    add lit_0 (mul 1%float (mul (opp (div (g self) (L self)))
                              (small_angle (theta0 self)))) in
  let ts := [0%float; 1%float] in
  let ths := [theta0 self; theta0 self] in
  let oms := [0%float; omega1] in
  let log' := [(theta0 self, 0%float)] in
  integrate_euler small_angle 2 self 1%float 1%float []
    = Returns ((ts, ths, oms), log')
  /\ exists e1 e2 e3,
       ts = lit_0 :: e1 /\ ths = theta0 self :: e2 /\ oms = lit_0 :: e3
       /\ length e2 = length e1 /\ length e3 = length e1
       /\ advances lit_0 1%float e1
       /\ euler_iterates small_angle (g self) (L self) 1%float
            (theta0 self) lit_0 e2 e3
       /\ ltb (last ts lit_0) 1%float = false
       /\ log' = [] ++ combine (removelast ths) (removelast oms).
Proof.
  intros self omega1 ts ths oms log'.
  assert (E : integrate_euler small_angle 2 self 1%float 1%float []
              = Returns ((ts, ths, oms), log')) by reflexivity.
  split; [exact E|].
  exact (integrate_euler_run_shape small_angle self 1%float 1%float 2 [] E).
Defined.

Lemma integrate_euler_zero_length_witness :
  let self := {| theta0 := 0%float; g := lit_9_81; L := 0%float |} in
  eqb (L self) lit_0 = true
  /\ integrate_euler small_angle 1 self lit_0_1 1%float [] =
       (if ltb lit_0 1%float then Raises ZeroDivisionError
        else Returns (([lit_0], [theta0 self], [lit_0]), [])).
Proof.
  intros self. split; [reflexivity|].
  exact (integrate_euler_zero_length small_angle self lit_0_1 1%float 0 []
           eq_refl).
Defined.

Lemma integrate_euler_never_raises_witness :
  let self := SimplePendulum_init np_radians64 lit_10 lit_9_81 lit_9_81 in
  eqb (L self) lit_0 = false
  /\ raised (integrate_euler small_angle 3 self lit_0_1 lit_20 []) = false.
Proof.
  intros self. split; [reflexivity|].
  exact (integrate_euler_never_raises small_angle self lit_0_1 lit_20 3 []
           eq_refl).
Defined.

Lemma integrate_RK4_iterates_witness :
  let ts := [0%float; 1%float] in
  let hs := [1%float; 0x1.8p-2%float] in
  let log' := [1%float; 0.5%float; 0.75%float; 0.25%float] in
  half_law (F:=float)
  /\ integrate_RK4 (total PrimFloat.opp) 2 1%float 1%float 1%float []
       = Returns ((ts, hs), log')
  /\ exists e1 e2,
       ts = lit_0 :: e1 /\ hs = 1%float :: e2
       /\ rk_iterates
            (fun y t c => snd (RK4_step_spec (autonomous PrimFloat.opp) y t c))
            1%float lit_0 1%float 1%float e1 e2.
Proof.
  intros ts hs log'.
  assert (E : integrate_RK4 (total PrimFloat.opp) 2 1%float 1%float 1%float []
              = Returns ((ts, hs), log')) by reflexivity.
  split; [exact half_law_float|]. split; [exact E|].
  exact (@integrate_RK4_iterates float _ float _ PrimFloat.opp half_law_float
           2 1%float 1%float 1%float [] ts hs log' E).
Defined.

Lemma integrate_RK2_iterates_witness :
  let ts := [0%float; 1%float] in
  let hs := [1%float; 0.5%float] in
  let log' := [1%float; 0.5%float] in
  half_law (F:=float)
  /\ integrate_RK2_with (Obj (total PrimFloat.opp)) 2 1%float 1%float 1%float []
       = Returns ((ts, hs), log')
  /\ exists e1 e2,
       ts = lit_0 :: e1 /\ hs = 1%float :: e2
       /\ rk_iterates
            (fun y t c => snd (RK2_step_spec (autonomous PrimFloat.opp) y t c))
            1%float lit_0 1%float 1%float e1 e2.
Proof.
  intros ts hs log'.
  assert (E : integrate_RK2_with (Obj (total PrimFloat.opp)) 2 1%float 1%float
                1%float [] = Returns ((ts, hs), log')) by reflexivity.
  split; [exact half_law_float|]. split; [exact E|].
  exact (@integrate_RK2_iterates float _ float _ PrimFloat.opp half_law_float
           2 1%float 1%float 1%float [] ts hs log' E).
Defined.

Lemma clamped_drivers_end_on_T_binary64_witness :
  let ts := [0%float; lit_0_3; 0x1.3333333333333p-1%float;
             0x1.cccccccccccccp-1%float; 1%float] in
  let hs := [1%float; 0x1.7b4f0d844d014p-1%float; 0x1.190195378a2ffp-1%float;
             0x1.a05c1e3c93a44p-2%float; 0x1.78bced2370757p-2%float] in
  let log' := [1%float; 0x1.b333333333333p-1%float; 0x1.beb851eb851ecp-1%float;
               0x1.79fbe76c8b43ap-1%float; 0x1.7b4f0d844d014p-1%float;
               0x1.4269984a0e411p-1%float; 0x1.4af269df97aabp-1%float;
               0x1.180654279f814p-1%float; 0x1.190195378a2ffp-1%float;
               0x1.ddb5e4119e1e5p-2%float; 0x1.ea5b15060974fp-2%float;
               0x1.9ee7d753ab233p-2%float; 0x1.a05c1e3c93a44p-2%float;
               0x1.8b8ab65325dc0p-2%float; 0x1.8c952eb86b594p-2%float;
               0x1.78b3999088e81p-2%float] in
  PrimFloat.ltb 0 lit_0_3 = true /\ PrimFloat.ltb 0 1 = true
  /\ integrate_RK4 decay_rhs 5 1%float lit_0_3 1%float [] = Returns ((ts, hs), log')
  /\ clamp 0x1.cccccccccccccp-1%float lit_0_3 1%float <> lit_0_3
  /\ ((exists rest, ts = 0%float :: rest /\ clamped_times 1%float 0%float lit_0_3 rest)
      /\ last ts 0%float = 1%float
      /\ Forall (fun t => PrimFloat.leb t 1 = true) ts)
  /\ (forall k,
        returned (integrate_RK4 decay_rhs (8 + k) 1%float lit_0_3 1%float []) = true
        /\ returned (integrate_RK4_first_with (Obj decay_rhs) (8 + k) 1%float lit_0_3
                       1%float []) = true
        /\ returned (integrate_RK2_with (Obj decay_rhs) (8 + k) 1%float lit_0_3
                       1%float []) = true).
Proof.
  intros ts hs log'.
  assert (E : integrate_RK4 decay_rhs 5 1%float lit_0_3 1%float []
              = Returns ((ts, hs), log')) by (vm_compute; reflexivity).
  destruct (@clamped_drivers_end_on_T_binary64 float _ decay_rhs 1%float lit_0_3
              1%float [] eq_refl eq_refl) as [Hpart Hends].
  split; [reflexivity|]. split; [reflexivity|]. split; [exact E|].
  split; [vm_compute; intros Hc; apply (f_equal Prim2SF) in Hc; vm_compute in Hc;
          discriminate Hc|].
  split; [exact (Hpart 5%nat ts hs log' (or_introl E))|].
  assert (Hlen : (float_Z 1 <= 2 ^ 50 * float_Z lit_0_3)%Z)
    by (apply Z.leb_le; vm_compute; reflexivity).
  assert (Hn : Z.to_nat (2 * float_Z 1 / float_Z lit_0_3) = 6%nat)
    by (vm_compute; reflexivity).
  intros k. specialize (Hends decay_returns eq_refl Hlen k).
  cbv zeta in Hends. rewrite Hn in Hends. exact Hends.
Defined.


Lemma integrate_RK4_never_ends_witness :
  always_returns (decay_rhs (F:=float))
  /\ PrimFloat.leb (-0.5) 0 = true /\ PrimFloat.ltb 0 1 = true
  /\ forall fuel, integrate_RK4 decay_rhs fuel 1%float (-0.5)%float 1%float [] = NoFuel.
Proof.
  split; [exact decay_returns|]. split; [reflexivity|]. split; [reflexivity|].
  exact (@integrate_RK4_never_ends float _ decay_rhs 1%float (-0.5)%float 1%float []
           decay_returns eq_refl eq_refl).
Defined.

Lemma integrate_euler_never_ends_witness :
  let self := SimplePendulum_init np_radians64 lit_10 lit_9_81 lit_9_81 in
  PrimFloat.eqb (L self) 0 = false
  /\ PrimFloat.leb 0 0 = true /\ PrimFloat.ltb 0 lit_20 = true
  /\ forall fuel, integrate_euler small_angle fuel self 0%float lit_20 [] = NoFuel.
Proof.
  intros self.
  split; [reflexivity|]. split; [reflexivity|]. split; [reflexivity|].
  exact (@integrate_euler_never_ends small_angle self 0%float lit_20 []
           eq_refl eq_refl eq_refl).
Defined.

Lemma RK4_body_recurrence_witness :
  half_law (F:=float)
  /\ (let v := {| v_t := 0.75%float; v_tau := 0.5%float; times := [0%float; 0.75%float];
                  history := [1%float] ++ [0.5%float] |} in
      let tau' := clamp 0.75%float 0.5%float 1%float in
      let spec := RK4_step_spec (autonomous PrimFloat.opp) 0.5%float 0.75%float tau' in
      RK4_body (total PrimFloat.opp) 1%float v [] =
        Returns ({| v_t := add 0.75%float tau'; v_tau := tau';
                    times := [0%float; 0.75%float] ++ [add 0.75%float tau'];
                    history := ([1%float] ++ [0.5%float]) ++ [snd spec] |},
                 [] ++ fst spec)
      /\ RK4_first_body (Obj (total PrimFloat.opp)) 1%float v []
         = RK4_body (total PrimFloat.opp) 1%float v []
      /\ length (fst spec) = 4%nat).
Proof.
  split; [exact half_law_float|].
  exact (@RK4_body_recurrence float _ float _ half_law_float PrimFloat.opp 1%float
           0.75%float 0.5%float [0%float; 0.75%float] [1%float] 0.5%float []).
Defined.

Lemma RK2_body_recurrence_witness :
  half_law (F:=float)
  /\ (let v := {| v_t := 0.75%float; v_tau := 0.5%float; times := [0%float; 0.75%float];
                  history := [1%float] ++ [0.5%float] |} in
      let tau' := clamp 0.75%float 0.5%float 1%float in
      let spec := RK2_step_spec (autonomous PrimFloat.opp) 0.5%float 0.75%float tau' in
      RK2_body (Str "insert_here") 1%float v [] = Raises AttributeError
      /\ RK2_body (Obj (total PrimFloat.opp)) 1%float v [] =
           Returns ({| v_t := add 0.75%float tau'; v_tau := tau';
                       times := [0%float; 0.75%float] ++ [add 0.75%float tau'];
                       history := ([1%float] ++ [0.5%float]) ++ [snd spec] |},
                    [] ++ fst spec)
      /\ length (fst spec) = 2%nat).
Proof.
  split; [exact half_law_float|].
  exact (@RK2_body_recurrence float _ float _ half_law_float PrimFloat.opp 1%float
           0.75%float 0.5%float [0%float; 0.75%float] [1%float] 0.5%float []).
Defined.

